(** * update-channel-single.py: the bundle channel rewriter

    A shallow embedding of [src/update-channel-single.py]: the three line
    patterns, the channel resolution closure [_get_channel], the single-pass
    rewrite loop of [modify_channel], the charm list loader
    [get_charms_list] and the lp-builder config parser
    [parse_lp_builder_config_file].

    Python [str] values are [string]s whose characters are the code points
    below 256.  A file is the list of lines that [readlines] returns. *)

From Stdlib Require Import Ascii String List Bool Arith ZArith Lia.
From stdpp Require Import base option list strings gmap.

Import ListNotations.
Local Open Scope string_scope.
Local Open Scope list_scope.

(** ** Python strings *)

Module Str.

(** The line terminator that [readlines] leaves at the end of a line. *)
Definition nl : string := String "010"%char EmptyString.

(** The two quote characters of the patterns. *)
Definition squote : string := String "039"%char EmptyString.
Definition dquote : string := String "034"%char EmptyString.

(** [str.isspace] on one character, which is also the class [\s] of [re]
    for [str] patterns: tab to carriage return, the four separators
    0x1c-0x1f, space, and in the Latin-1 range NEL and the no-break
    space. *)
Definition is_space (c : ascii) : bool :=
  let n := nat_of_ascii c in
  (((9 <=? n) && (n <=? 13)) || ((28 <=? n) && (n <=? 32))
   || (n =? 133) || (n =? 160))%nat.

(** The class [[a-zA-Z0-9-]]. *)
Definition is_name_char (c : ascii) : bool :=
  let n := nat_of_ascii c in
  (((97 <=? n) && (n <=? 122)) || ((65 <=? n) && (n <=? 90))
   || ((48 <=? n) && (n <=? 57)) || (n =? 45))%nat.

(** The class [.]: everything but the line feed. *)
Definition is_dot (c : ascii) : bool := negb (nat_of_ascii c =? 10)%nat.

(** The class [\S]. *)
Definition is_nonspace (c : ascii) : bool := negb (is_space c).

Fixpoint all (p : ascii -> bool) (s : string) : bool :=
  match s with
  | EmptyString => true
  | String c s' => p c && all p s'
  end.

(** [strip_prefix p s]: what is left of [s] after its prefix [p]. *)
Fixpoint strip_prefix (p s : string) : option string :=
  match p with
  | EmptyString => Some s
  | String a p' =>
      match s with
      | EmptyString => None
      | String b s' => if Ascii.eqb a b then strip_prefix p' s' else None
      end
  end.

(** [s.startswith(p)] *)
Definition startswith (s p : string) : bool :=
  match strip_prefix p s with Some _ => true | None => false end.

(** [s.replace(old, new)]: every occurrence of [old], left to right and
    without overlap.  [skip] counts the characters of an occurrence that
    are still to be dropped.  With an empty [old] Python puts [new]
    before every character and at the end. *)
Fixpoint replace_from (old new : string) (skip : nat) (s : string) : string :=
  match s with
  | EmptyString =>
      match old with EmptyString => new | _ => EmptyString end
  | String c s' =>
      match skip with
      | S k => replace_from old new k s'
      | O =>
          match old with
          | EmptyString => new +:+ String c (replace_from old new 0 s')
          | _ =>
              if startswith s old
              then new +:+ replace_from old new (String.length old - 1) s'
              else String c (replace_from old new 0 s')
          end
      end
  end.

Definition replace (s old new : string) : string := replace_from old new 0 s.

(** [s.lstrip()], [s.rstrip()], [s.strip()] *)
Fixpoint lstrip (s : string) : string :=
  match s with
  | EmptyString => EmptyString
  | String c s' => if is_space c then lstrip s' else s
  end.

Fixpoint rstrip (s : string) : string :=
  match s with
  | EmptyString => EmptyString
  | String c s' =>
      match rstrip s' with
      | EmptyString => if is_space c then EmptyString else String c EmptyString
      | r => String c r
      end
  end.

Definition strip (s : string) : string := rstrip (lstrip s).

(** Truth value of a string: [if line]. *)
Definition truthy (s : string) : bool :=
  match s with EmptyString => false | _ => true end.

End Str.

(** ** The fragment of [re] that the three patterns use

    [re.match] anchors at the start of the string, tries the alternatives of
    a group from left to right and the greedy repetitions longest first,
    and answers with the first way through the whole pattern.  [exec] lists
    all ways through a pattern in that order, each with the text it
    matched, the text left over and the groups it captured; the match is
    the head of the list. *)

Module Re.

Inductive regex : Type :=
| Eps                                  (* the empty alternative *)
| Lit (l : string)                     (* literal text *)
| Star (p : ascii -> bool)             (* [p*], greedy, on a class *)
| Plus (p : ascii -> bool)             (* [p+], greedy, on a class *)
| Cat (r1 r2 : regex)
| Alt (r1 r2 : regex)                  (* [r1|r2] *)
| Group (n : nat) (r : regex)          (* capture group number [n] *)
| Eol.                                 (* [$] *)

Definition caps : Type := list (nat * string).

(** The runs of [p]-characters at the head of [s], longest first, each
    with the rest of [s]. *)
Fixpoint star (p : ascii -> bool) (s : string) : list (string * string) :=
  match s with
  | EmptyString => [(EmptyString, EmptyString)]
  | String c s' =>
      if p c
      then map (fun mr => (String c (fst mr), snd mr)) (star p s')
             ++ [(EmptyString, s)]
      else [(EmptyString, s)]
  end.

Definition plus (p : ascii -> bool) (s : string) : list (string * string) :=
  match s with
  | EmptyString => []
  | String c s' =>
      if p c
      then map (fun mr => (String c (fst mr), snd mr)) (star p s')
      else []
  end.

(** [$] holds at the end of the string and just before a line feed that
    ends the string. *)
Definition at_eol (s : string) : bool :=
  match s with
  | EmptyString => true
  | String c EmptyString => Ascii.eqb c "010"
  | _ => false
  end.

Definition result : Type := string * string * caps.

Fixpoint exec (r : regex) (s : string) : list result :=
  match r with
  | Eps => [(EmptyString, s, [])]
  | Lit l =>
      match Str.strip_prefix l s with
      | Some rest => [(l, rest, [])]
      | None => []
      end
  | Star p => map (fun mr => (fst mr, snd mr, [])) (star p s)
  | Plus p => map (fun mr => (fst mr, snd mr, [])) (plus p s)
  | Cat r1 r2 =>
      flat_map
        (fun x1 : result =>
           let '(m1, s1, c1) := x1 in
           map (fun x2 : result =>
                  let '(m2, s2, c2) := x2 in (m1 +:+ m2, s2, c1 ++ c2))
               (exec r2 s1))
        (exec r1 s)
  | Alt r1 r2 => exec r1 s ++ exec r2 s
  | Group n r =>
      map (fun x : result => let '(m, s', c) := x in (m, s', c ++ [(n, m)]))
          (exec r s)
  | Eol => if at_eol s then [(EmptyString, s, [])] else []
  end.

(** [pattern.match(s)]: the captures of the first way through. *)
Definition re_match (r : regex) (s : string) : option caps :=
  match exec r s with
  | [] => None
  | (_, _, c) :: _ => Some c
  end.

(** [m[n]] *)
Fixpoint group (n : nat) (c : caps) : string :=
  match c with
  | [] => EmptyString
  | (k, v) :: c' => if Nat.eqb k n then v else group n c'
  end.

End Re.

Import Str Re.

Declare Scope re_scope.
Delimit Scope re_scope with re.
Bind Scope re_scope with regex.
Infix "+++" := Cat (at level 60, right associativity) : re_scope.
Infix "</>" := Alt (at level 62, right associativity) : re_scope.

(** ** The three patterns of the script

    Each definition follows its pattern piece by piece; in the comments [Q]
    stands for the double quote character and a blank is put between a
    star and a closing bracket.  The leading [^] is what [match] does
    anyway. *)

(** [(?:|'|Q)] *)
Definition opt_quote : regex := (Eps </> Lit squote </> Lit dquote)%re.

(** [\s*(?:|#.* )$] *)
Definition line_tail : regex :=
  (Star is_space +++ (Eps </> (Lit "#" +++ Star is_dot)) +++ Eol)%re.

(** [^(\s* )charm:\s+(?:|'|Q)(ch:|cs:(?:~openstack-charmers/|~openstack-charmers-next/))([a-zA-Z0-9-]+)(?:|'|Q)\s*(?:|#.* )$] *)
Definition CHARM_MATCH : regex :=
  (Group 1 (Star is_space) +++ Lit "charm:" +++ Plus is_space +++ opt_quote +++
   Group 2 (Lit "ch:" </>
            (Lit "cs:" +++
             (Lit "~openstack-charmers/" </> Lit "~openstack-charmers-next/"))) +++
   Group 3 (Plus is_name_char) +++ opt_quote +++ line_tail)%re.

(** [^(\s* )channel:\s+(\S+)\s*(?:|#.* )$] *)
Definition CHANNEL_MATCH : regex :=
  (Group 1 (Star is_space) +++ Lit "channel:" +++ Plus is_space +++
   Group 2 (Plus is_nonspace) +++ line_tail)%re.

(** [^(\s* )charm:\s+(?:|'|Q)(cs:.*/)([a-zA-Z0-9-]+)(?:|'|Q)\s*(?:|#.* )$] *)
Definition ANY_CHARM_MATCH : regex :=
  (Group 1 (Star is_space) +++ Lit "charm:" +++ Plus is_space +++ opt_quote +++
   Group 2 (Lit "cs:" +++ Star is_dot +++ Lit "/") +++
   Group 3 (Plus is_name_char) +++ opt_quote +++ line_tail)%re.

(** ** [modify_channel]

    [LpConfig = Dict[str, Dict[str, List[str]]]]: charm, then branch, then
    the track/channel candidates in order. *)

Abbreviation LpConfig := (gmap string (gmap string (list string))).

(** The two loop variables [indent] and [current_charm]. *)
Record state : Type := State {
  indent : option string;
  current_charm : option string
}.

Definition idle : state := State None None.

Section Engine.

(** The arguments of [modify_channel] besides the file.  An absent
    [branches] or [ignore_tracks] ([None] from the argument parser) is as
    falsy as the empty list and is the empty list here. *)
Variable charms : list string.
Variable lp_config : LpConfig.
Variable channel : option string.
Variable branches : list string.
Variable ensure_charmhub_prefix : bool.
Variable ignore_tracks : list string.

(** [if branches: valid_charms = list(lp_config.keys()) else charms[:]],
    and the test [match[3] in valid_charms]. *)
Definition is_valid_charm (name : string) : bool :=
  match branches with
  | [] => bool_decide (name ∈ charms)
  | _ :: _ => bool_decide (is_Some (lp_config !! name))
  end.

(** The inner [for ignore in ignore_tracks] with its [break]: does some
    ignored prefix start [track]? *)
Fixpoint ignored (track : string) (ignores : list string) : bool :=
  match ignores with
  | [] => false
  | ignore :: rest =>
      if startswith track ignore then true else ignored track rest
  end.

(** [for track in lp_config[_charm][branch]]: [Some track] is a [return],
    [None] is the loop running off its end. *)
Fixpoint scan_tracks (tracks : list string) : option string :=
  match tracks with
  | [] => None
  | track :: rest =>
      match ignore_tracks with
      | [] => Some track
      | _ :: _ =>
          if ignored track ignore_tracks
          then scan_tracks rest
          else Some track
      end
  end.

(** [for branch in branches]; a missing charm or branch is the [KeyError]
    that the loop body passes over. *)
Fixpoint scan_branches (_charm : string) (bs : list string) : option string :=
  match bs with
  | [] => None
  | branch :: rest =>
      match lp_config !! _charm ≫= (fun by_branch => by_branch !! branch) with
      | Some tracks =>
          match scan_tracks tracks with
          | Some track => Some track
          | None => scan_branches _charm rest
          end
      | None => scan_branches _charm rest
      end
  end.

Definition _get_channel (_charm : option string) : option string :=
  match _charm with
  | None => None
  | Some c =>
      match branches with
      | [] => channel
      | _ :: _ => scan_branches c branches
      end
  end.

(** [channel is not None or branches] *)
Definition wants_channel : bool :=
  match channel, branches with
  | None, [] => false
  | _, _ => true
  end.

(** ["{}channel: {}\n".format(indent, _channel)] *)
Definition channel_line (ind ch : string) : string :=
  ind +:+ "channel: " +:+ ch +:+ nl.

(** The lines appended when a block is closed: the guarded
    [new_lines.append] that the loop has three times. *)
Definition close_block (ind : string) (cur : option string) : list string :=
  if wants_channel then
    match _get_channel cur with
    | Some ch => [channel_line ind ch]
    | None => []
    end
  else [].

(** [channel_match and channel_match[1] == indent] *)
Definition is_block_channel (ind line : string) : bool :=
  match re_match CHANNEL_MATCH line with
  | Some m => String.eqb (group 1 m) ind
  | None => false
  end.

(** The second half of the loop body, from [match = CHARM_MATCH.match(line)]
    to [new_lines.append(line)]: the line to append and the state. *)
Definition detect_reference (st : state) (line : string) : string * state :=
  match re_match CHARM_MATCH line with
  | Some m =>
      if is_valid_charm (group 3 m) then
        (if ensure_charmhub_prefix && negb (String.eqb (group 2 m) "ch:")
         then replace line (group 2 m) "ch:"
         else line,
         State (Some (group 1 m)) (Some (group 3 m)))
      else (line, st)
  | None =>
      match re_match ANY_CHARM_MATCH line with
      | Some am =>
          if ensure_charmhub_prefix
          then (replace line (group 2 am) "ch:", st)
          else (line, st)
      | None => (line, st)
      end
  end.

(** One turn of [for line in file_lines]: the lines appended to
    [new_lines] and the state after it. *)
Definition step (st : state) (line : string) : list string * state :=
  match indent st with
  | Some ind =>
      if startswith line ind then
        if is_block_channel ind line then
          (* the block's own channel line: replaced or dropped, [continue] *)
          (close_block ind (current_charm st), idle)
        else
          let '(line', st') := detect_reference st line in ([line'], st')
      else
        (* the block has ended *)
        let '(line', st') := detect_reference idle line in
        (close_block ind (current_charm st) ++ [line'], st')
  | None =>
      let '(line', st') := detect_reference st line in ([line'], st')
  end.

(** The whole loop from a given state. *)
Fixpoint steps (st : state) (file_lines : list string) : list string * state :=
  match file_lines with
  | [] => ([], st)
  | line :: rest =>
      let '(out, st') := step st line in
      let '(outs, st'') := steps st' rest in
      (out ++ outs, st'')
  end.

(** After the loop: [if indent is not None and (channel is not None or
    branches)]. *)
Definition finish (st : state) : list string :=
  match indent st with
  | Some ind => close_block ind (current_charm st)
  | None => []
  end.

(** The loop and what follows it, from a given state. *)
Definition run (st : state) (file_lines : list string) : list string :=
  let '(out, st') := steps st file_lines in out ++ finish st'.

(** [modify_channel]: from the lines read to the lines written. *)
Definition modify_channel (file_lines : list string) : list string :=
  run idle file_lines.

End Engine.

(** ** The bundle file around [modify_channel]

    [open(bundle_filename)] opens the file in text mode with universal
    newlines: what [f.readlines()] sees is the text of the file with
    every CR LF and every CR that stands alone turned into a line feed.
    [f.readlines()] cuts that text after every line feed;
    [f.writelines(new_lines)] writes the lines one after the other and
    adds nothing, and a line feed is written as it is (the line
    separator of the platform, a line feed where the tool is run). *)

(** The translation of line ends on reading; [after_cr] says that the
    character before was a CR, whose LF is then dropped. *)
Fixpoint translate_newlines (after_cr : bool) (text : string) : string :=
  match text with
  | EmptyString => EmptyString
  | String c text' =>
      if Ascii.eqb c "013" then
        String "010" (translate_newlines true text')
      else if Ascii.eqb c "010" then
        if after_cr then translate_newlines false text'
        else String "010" (translate_newlines false text')
      else String c (translate_newlines false text')
  end.

Definition universal_newlines (text : string) : string :=
  translate_newlines false text.

Fixpoint readlines (text : string) : list string :=
  match text with
  | EmptyString => []
  | String c text' =>
      if Ascii.eqb c "010" then String c EmptyString :: readlines text'
      else
        match readlines text' with
        | [] => [String c EmptyString]
        | line :: lines => String c line :: lines
        end
  end.

Fixpoint writelines (lines : list string) : string :=
  match lines with
  | [] => EmptyString
  | line :: rest => line +:+ writelines rest
  end.

(** What [modify_channel] makes of the text of the bundle file: the text
    that is written to the new file and renamed over the old one. *)
Definition rewrite_file (charms : list string) (lp_config : LpConfig)
    (channel : option string) (branches : list string)
    (ensure_charmhub_prefix : bool) (ignore_tracks : list string)
    (text : string) : string :=
  writelines
    (modify_channel charms lp_config channel branches ensure_charmhub_prefix
       ignore_tracks (readlines (universal_newlines text))).

(** ** [get_charms_list]

    A charms file is given by what [readlines] returns for it. *)

Definition keep_name (line : string) : bool :=
  truthy line && negb (startswith line "#").

Definition get_charms_list (charms_files : list (list string)) : list string :=
  let lines :=
    flat_map (fun f => map strip (filter (fun line => truthy line = true) f))
             charms_files in
  filter (fun line => keep_name line = true) lines.

(** ** [parse_lp_builder_config_file]

    What [yaml.safe_load] returns.  The keys of a mapping are hashable,
    hence scalars.  A Python boolean is the integer 1 or 0 (it compares
    and hashes as that integer), and a float takes every branch below that
    an integer takes.  A mapping is listed in key order with the binding
    of a key being its first entry. *)

Inductive scalar : Type :=
| SNull
| SInt (z : Z)
| SStr (s : string).

#[warning="-register-all"]
Inductive yaml : Type :=
| YScal (v : scalar)
| YSeq (items : list yaml)
| YMap (entries : list (scalar * yaml)).

Global Instance scalar_eq_dec : EqDecision scalar.
Proof. solve_decision. Defined.

Global Instance scalar_countable : Countable scalar.
Proof.
  refine (inj_countable'
            (fun v => match v with
                      | SNull => inl tt
                      | SInt z => inr (inl z)
                      | SStr s => inr (inr s)
                      end)
            (fun x => match x with
                      | inl _ => SNull
                      | inr (inl z) => SInt z
                      | inr (inr s) => SStr s
                      end) _).
  intros []; reflexivity.
Defined.

(** The exceptions that the parser's own expressions can raise, and a
    computation that returns or raises. *)
Inductive exn : Type := KeyError | TypeError | AttributeError.

Inductive outcome (A : Type) : Type :=
| Ok (a : A)
| Raise (e : exn).
Arguments Ok {A} a.
Arguments Raise {A} e.

Definition obind {A B} (c : outcome A) (k : A -> outcome B) : outcome B :=
  match c with
  | Ok a => k a
  | Raise e => Raise e
  end.

Notation "x <- c ;;; k" := (obind c (fun x => k))
  (at level 100, c at next level, right associativity).

(** [try: c except KeyError: h] *)
Definition except_KeyError {A} (c : outcome A) (h : outcome A) : outcome A :=
  match c with
  | Raise KeyError => h
  | other => other
  end.

Fixpoint entry (k : scalar) (entries : list (scalar * yaml)) : option yaml :=
  match entries with
  | [] => None
  | (k', v) :: rest => if decide (k' = k) then Some v else entry k rest
  end.

(** [y[key]] for a string [key]: a mapping looks the key up; a sequence
    and a string want integer indices, the other scalars have no
    subscript. *)
Definition getitem (y : yaml) (key : string) : outcome yaml :=
  match y with
  | YMap entries =>
      match entry (SStr key) entries with
      | Some v => Ok v
      | None => Raise KeyError
      end
  | _ => Raise TypeError
  end.

(** [y.items()] *)
Definition items (y : yaml) : outcome (list (scalar * yaml)) :=
  match y with
  | YMap entries => Ok entries
  | _ => Raise AttributeError
  end.

(** [for x in y]: the items of a sequence, the keys of a mapping, the
    characters of a string. *)
Definition iterate (y : yaml) : outcome (list yaml) :=
  match y with
  | YSeq l => Ok l
  | YMap entries => Ok (map (fun kv => YScal (fst kv)) entries)
  | YScal (SStr s) =>
      Ok (map (fun c => YScal (SStr (String c EmptyString)))
              (list_ascii_of_string s))
  | YScal _ => Raise TypeError
  end.

(** A dictionary key has to be hashable. *)
Definition hashable (y : yaml) : outcome scalar :=
  match y with
  | YScal v => Ok v
  | _ => Raise TypeError
  end.

(** [{k: v['channels'] for k, v in its}], built entry by entry *)
Fixpoint channels_of (its : list (scalar * yaml)) (acc : gmap scalar yaml)
  : outcome (gmap scalar yaml) :=
  match its with
  | [] => Ok acc
  | (k, v) :: rest =>
      c <- getitem v "channels" ;;;
      channels_of rest (<[k := c]> acc)
  end.

(** [{k: v['channels'] for k, v in y['branches'].items()}] *)
Definition branches_of (y : yaml) : outcome (gmap scalar yaml) :=
  b <- getitem y "branches" ;;;
  its <- items b ;;;
  channels_of its ∅.

(** The first [try]: the default branches. *)
Definition load_defaults (raw_config : yaml) : outcome (gmap scalar yaml) :=
  except_KeyError
    (d <- getitem raw_config "defaults" ;;; branches_of d)
    (Ok ∅).

Abbreviation RawLpConfig := (gmap scalar (gmap scalar yaml)).

(** The body of [for project in raw_config['projects']], on the dictionary
    [lp_config] that it updates. *)
Definition add_project (default_branches : gmap scalar yaml) (project : yaml)
    (lp_config : RawLpConfig) : outcome RawLpConfig :=
  branches <- except_KeyError (branches_of project) (Ok default_branches) ;;;
  name <- getitem project "charmhub" ;;;
  key <- hashable name ;;;
  Ok (<[key := branches]> lp_config).

(** The loop: the dictionary as the loop left it, and how the loop ended. *)
Fixpoint add_projects (default_branches : gmap scalar yaml)
    (projects : list yaml) (lp_config : RawLpConfig)
  : RawLpConfig * outcome unit :=
  match projects with
  | [] => (lp_config, Ok tt)
  | project :: rest =>
      match add_project default_branches project lp_config with
      | Ok lp_config' => add_projects default_branches rest lp_config'
      | Raise e => (lp_config, Raise e)
      end
  end.

(** The second [try]: looking the projects up, iterating them, and the loop
    body are all inside it. *)
Definition load_projects (default_branches : gmap scalar yaml)
    (raw_config : yaml) : RawLpConfig * outcome unit :=
  match (projects <- getitem raw_config "projects" ;;; iterate projects) with
  | Ok l => add_projects default_branches l ∅
  | Raise e => (∅, Raise e)
  end.

(** What the function returns, together with whether it logged the
    warning about the missing projects key.  [Raise] is an exception that
    leaves the function: only a [KeyError] is caught.  The argument is the
    loaded document; a file that cannot be loaded ends the process before
    this point. *)
Definition parse_lp_builder_config_file (raw_config : yaml)
  : outcome (RawLpConfig * bool) :=
  default_branches <- load_defaults raw_config ;;;
  match load_projects default_branches raw_config with
  | (lp_config, Ok _) => Ok (lp_config, false)
  | (lp_config, Raise KeyError) => Ok (lp_config, true)
  | (_, Raise e) => Raise e
  end.

(** Writing documents down: a mapping with string keys, a string scalar. *)
Definition ymap (l : list (string * yaml)) : yaml :=
  YMap (map (fun kv => (SStr (fst kv), snd kv)) l).
Definition ystr (s : string) : yaml := YScal (SStr s).

(** A line of a file, with its line feed. *)
Definition ln (s : string) : string := s +:+ nl.

(** ** [get_lp_builder_config]

    The config files are given by what [yaml.safe_load] returns for each,
    in the order in which [glob] yields them.  [lp_config.update(new)]
    lets the entries of [new] win over those already there. *)

Fixpoint update_with_files (config_files : list yaml) (lp_config : RawLpConfig)
  : outcome RawLpConfig :=
  match config_files with
  | [] => Ok lp_config
  | config_file :: rest =>
      parsed <- parse_lp_builder_config_file config_file ;;;
      update_with_files rest (fst parsed ∪ lp_config)
  end.

Definition get_lp_builder_config (config_files : list yaml)
  : outcome RawLpConfig :=
  update_with_files config_files ∅.

(** ** Notions that the statements use *)

(** A channel value that reads back as one: not empty and free of white
    space. *)
Definition is_channel_token (ch : string) : bool :=
  truthy ch && all is_nonspace ch.

(** The block of a reference line as the spec delimits it: the lines
    after the reference line that start with its indent, and then the
    first line that does not, the terminating line, if the file goes
    on. *)
Fixpoint block_after (ind : string) (rest : list string) : list string :=
  match rest with
  | [] => []
  | line :: rest' =>
      if startswith line ind then line :: block_after ind rest' else [line]
  end.

(** Whenever no block is open, no charm is remembered either. *)
Definition settled (st : state) : Prop :=
  indent st = None -> st = idle.

Section EngineNotions.

Variable charms : list string.
Variable lp_config : LpConfig.
Variable channel : option string.
Variable branches : list string.
Variable ensure_charmhub_prefix : bool.
Variable ignore_tracks : list string.

(** The states the loop can be in: an open block has a white space
    indent and an eligible charm. *)
Definition tracking (st : state) : Prop :=
  match indent st with
  | Some ind =>
      all is_space ind = true /\
      exists c, current_charm st = Some c /\
                is_valid_charm charms lp_config branches c = true
  | None => True
  end.

(** A line that reference detection has no business with: no reference
    to an eligible charm and, when the prefix is to be ensured, no
    reference with a [cs:] prefix at all. *)
Definition inert (line : string) : bool :=
  match re_match CHARM_MATCH line with
  | Some m =>
      negb (is_valid_charm charms lp_config branches (group 3 m))
      && (negb ensure_charmhub_prefix || String.eqb (group 2 m) "ch:")
  | None =>
      match re_match ANY_CHARM_MATCH line with
      | Some _ => negb ensure_charmhub_prefix
      | None => true
      end
  end.

(** Every channel line that the loop takes for the channel line of an
    open block is the last line of that block: the next line, if there
    is one, does not start with the indent of the block. *)
Fixpoint channel_ends_block (st : state) (file_lines : list string) : bool :=
  match file_lines with
  | [] => true
  | line :: rest =>
      match indent st with
      | Some ind =>
          if startswith line ind && is_block_channel ind line
          then match rest with
               | [] => true
               | next :: _ => negb (startswith next ind)
               end
          else true
      | None => true
      end
      && channel_ends_block
           (snd (step charms lp_config channel branches
                      ensure_charmhub_prefix ignore_tracks st line))
           rest
  end.

(** Seen from an open block at indent [ind]: before the block ends (a
    line that does not start with [ind], or the end of the file) and
    before a reference to an eligible charm takes the state over, no
    line is one that the loop takes for the channel line of the
    block. *)
Fixpoint no_block_channel_ahead (ind : string) (file_lines : list string)
  : bool :=
  match file_lines with
  | [] => true
  | line :: rest =>
      if startswith line ind then
        if is_block_channel ind line then false
        else
          match re_match CHARM_MATCH line with
          | Some m =>
              if is_valid_charm charms lp_config branches (group 3 m)
              then true
              else no_block_channel_ahead ind rest
          | None => no_block_channel_ahead ind rest
          end
      else true
  end.

(** Every channel line that the loop takes out of an open block without
    writing one in its place (no channel is to be set, or the charm of
    the block resolves to none) is the last one of that block: no
    further channel line of the block is ahead. *)
Fixpoint unwritten_channel_clear (st : state) (file_lines : list string)
  : bool :=
  match file_lines with
  | [] => true
  | line :: rest =>
      match indent st with
      | Some ind =>
          if startswith line ind && is_block_channel ind line
          then match close_block lp_config channel branches ignore_tracks
                       ind (current_charm st) with
               | [] => no_block_channel_ahead ind rest
               | _ :: _ => true
               end
          else true
      | None => true
      end
      && unwritten_channel_clear
           (snd (step charms lp_config channel branches
                      ensure_charmhub_prefix ignore_tracks st line))
           rest
  end.

End EngineNotions.

(** The shape that the parser expects of a config document.  A
    [branches] section, where there is one, is a mapping from branch names
    to mappings. *)
Definition is_mapping (y : yaml) : bool :=
  match y with YMap _ => true | _ => false end.

Definition branches_shape (entries : list (scalar * yaml)) : bool :=
  match entry (SStr "branches") entries with
  | None => true
  | Some (YMap bs) => forallb (fun kv => is_mapping (snd kv)) bs
  | Some _ => false
  end.

(** A [defaults] section, where there is one, is a mapping with such a
    [branches] section. *)
Definition defaults_shape (entries : list (scalar * yaml)) : bool :=
  match entry (SStr "defaults") entries with
  | None => true
  | Some (YMap d) => branches_shape d
  | Some _ => false
  end.

(** A project that the loop takes in: a mapping with a scalar under
    [charmhub] and a [branches] section of that shape. *)
Definition project_shape (project : yaml) : bool :=
  match project with
  | YMap p =>
      branches_shape p &&
      match entry (SStr "charmhub") p with
      | Some (YScal _) => true
      | _ => false
      end
  | _ => false
  end.

(** A line inside the block at indent [ind] that the loop only copies:
    it starts with the indent, it is not the channel line of the block,
    and reference detection has no business with it. *)
Definition block_line (charms : list string) (lp_config : LpConfig)
    (branches : list string) (ensure_charmhub_prefix : bool)
    (ind line : string) : bool :=
  startswith line ind && negb (is_block_channel ind line)
  && inert charms lp_config branches ensure_charmhub_prefix line.

(** Does the line match the channel pattern? *)
Definition is_channel_line (line : string) : bool :=
  match re_match CHANNEL_MATCH line with Some _ => true | None => false end.

(** A channel line as the loop writes it: at a white space indent, with
    the channel that some eligible charm resolves to. *)
Definition written_channel_line (charms : list string) (lp_config : LpConfig)
    (channel : option string) (branches ignore_tracks : list string)
    (line : string) : Prop :=
  exists ind c ch,
    line = channel_line ind ch /\ all is_space ind = true /\
    is_valid_charm charms lp_config branches c = true /\
    _get_channel lp_config channel branches ignore_tracks (Some c) = Some ch.

(** A whole line: text without line feed, and then a line feed. *)
Definition whole_line (line : string) : Prop :=
  exists body, line = body +:+ nl /\ all is_dot body = true.

(** The indent of the open block has no line feed in it. *)
Definition one_line_indent (st : state) : Prop :=
  match indent st with
  | Some ind => all is_dot ind = true
  | None => True
  end.

(** A character that is neither of the two line end characters. *)
Definition not_cr (c : ascii) : bool := negb (Ascii.eqb c "013").

Definition is_plain (c : ascii) : bool := is_dot c && not_cr c.

(** A line as [readlines] hands it on from a text that ends with a line
    end: text without line feed and without CR, and then a line feed. *)
Definition plain_line (line : string) : Prop :=
  exists body, line = body +:+ nl /\ all is_plain body = true.

(** The indent of the open block has no line end character in it. *)
Definition plain_indent (st : state) : Prop :=
  match indent st with
  | Some ind => all is_plain ind = true
  | None => True
  end.

(** * Properties *)

Local Arguments String.append !_ _ / : simpl nomatch.

(** ** Strings *)

Section StringFacts.

Lemma append_assoc (a b c : string) : (a +:+ b) +:+ c = a +:+ (b +:+ c).
Proof. induction a as [|x a IH]; simpl; [reflexivity | now rewrite IH]. Qed.

Lemma append_empty_r (a : string) : a +:+ EmptyString = a.
Proof. induction a as [|x a IH]; simpl; [reflexivity | now rewrite IH]. Qed.

Lemma strip_prefix_app (p r : string) : strip_prefix p (p +:+ r) = Some r.
Proof.
  induction p as [|x p IH]; simpl; [reflexivity|].
  now rewrite Ascii.eqb_refl.
Qed.

Lemma strip_prefix_Some (p s r : string) :
  strip_prefix p s = Some r -> s = p +:+ r.
Proof.
  revert s; induction p as [|x p IH]; simpl; intros s H.
  - now inversion H.
  - destruct s as [|y s]; [discriminate|].
    destruct (Ascii.eqb_spec x y) as [->|]; [|discriminate].
    now rewrite (IH _ H).
Qed.

Lemma startswith_app (p r : string) : startswith (p +:+ r) p = true.
Proof. unfold startswith. now rewrite strip_prefix_app. Qed.

Lemma all_app (p : ascii -> bool) (a b : string) :
  all p (a +:+ b) = all p a && all p b.
Proof.
  induction a as [|x a IH]; simpl; [reflexivity|].
  now rewrite IH, andb_assoc.
Qed.

(** Two runs of [p]-characters, each followed by a character that is not
    in [p], split a string at the same place. *)
Lemma run_unique (p : ascii -> bool) (a b : string) x y r r' :
  all p a = true -> all p b = true -> p x = false -> p y = false ->
  a +:+ String x r = b +:+ String y r' ->
  a = b /\ String x r = String y r'.
Proof.
  revert b; induction a as [|c a IH]; intros [|d b]; simpl;
    intros Ha Hb Hx Hy E.
  - now split.
  - inversion E; subst. apply andb_prop in Hb as [Hd _]. congruence.
  - inversion E; subst. apply andb_prop in Ha as [Hc _]. congruence.
  - inversion E; subst.
    apply andb_prop in Ha as [_ Ha]. apply andb_prop in Hb as [_ Hb].
    destruct (IH b Ha Hb Hx Hy H1) as [-> ->]. now split.
Qed.

End StringFacts.

(** ** The matcher *)

Section MatcherFacts.

Lemma in_star p s m r :
  In (m, r) (star p s) <-> s = m +:+ r /\ all p m = true.
Proof.
  revert m r; induction s as [|c s IH]; intros m r; simpl.
  - split.
    + intros [E|[]]. inversion E; subst. now split.
    + intros [E _]. left. destruct m; [|discriminate].
      simpl in E. now subst.
  - destruct (p c) eqn:Hc.
    + rewrite in_app_iff, in_map_iff. split.
      * intros [[[m' r'] [E H]]|[E|[]]].
        -- inversion E; subst. apply IH in H as [-> H].
           simpl. now rewrite Hc, H.
        -- inversion E; subst. now split.
      * intros [E H]. destruct m as [|d m].
        -- right. left. simpl in E. now subst.
        -- left. simpl in E. inversion E; subst.
           simpl in H. apply andb_prop in H as [_ H].
           exists (m, r). split; [reflexivity|]. apply IH. now split.
    + split.
      * intros [E|[]]. inversion E; subst. now split.
      * intros [E H]. left. destruct m as [|d m].
        -- simpl in E. now subst.
        -- simpl in E. inversion E; subst. simpl in H. now rewrite Hc in H.
Qed.

Lemma in_plus p s m r :
  In (m, r) (plus p s) <->
  s = m +:+ r /\ all p m = true /\ m <> EmptyString.
Proof.
  destruct s as [|c s]; simpl.
  - split; [intros []|]. intros (E & _ & N). destruct m; [congruence|discriminate].
  - destruct (p c) eqn:Hc.
    + rewrite in_map_iff. split.
      * intros [[m' r'] [E H]]. inversion E; subst.
        apply in_star in H as [-> H]. simpl. now rewrite Hc, H.
      * intros (E & H & N). destruct m as [|d m]; [congruence|].
        simpl in E. inversion E; subst. simpl in H.
        apply andb_prop in H as [_ H].
        exists (m, r). split; [reflexivity|]. apply in_star. now split.
    + split; [intros []|]. intros (E & H & N).
      destruct m as [|d m]; [congruence|].
      simpl in E. inversion E; subst. simpl in H. now rewrite Hc in H.
Qed.

Lemma in_exec_cat r1 r2 s m rest c :
  In (m, rest, c) (exec (Cat r1 r2) s) <->
  exists m1 s1 c1 m2 c2,
    In (m1, s1, c1) (exec r1 s) /\ In (m2, rest, c2) (exec r2 s1) /\
    m = m1 +:+ m2 /\ c = c1 ++ c2.
Proof.
  simpl. rewrite in_flat_map. split.
  - intros [[[m1 s1] c1] [H1 H2]]. apply in_map_iff in H2 as [[[m2 s2] c2] [E H2]].
    inversion E; subst. now exists m1, s1, c1, m2, c2.
  - intros (m1 & s1 & c1 & m2 & c2 & H1 & H2 & -> & ->).
    exists (m1, s1, c1). split; [assumption|].
    apply in_map_iff. now exists (m2, rest, c2).
Qed.

Lemma in_exec_alt r1 r2 s x :
  In x (exec (Alt r1 r2) s) <-> In x (exec r1 s) \/ In x (exec r2 s).
Proof. simpl. apply in_app_iff. Qed.

Lemma in_exec_group n r s m rest c :
  In (m, rest, c) (exec (Group n r) s) <->
  exists c', In (m, rest, c') (exec r s) /\ c = c' ++ [(n, m)].
Proof.
  simpl. rewrite in_map_iff. split.
  - intros [[[m' s'] c'] [E H]]. inversion E; subst. now exists c'.
  - intros [c' [H ->]]. now exists (m, rest, c').
Qed.

Lemma in_exec_lit l s m rest c :
  In (m, rest, c) (exec (Lit l) s) <-> s = l +:+ rest /\ m = l /\ c = [].
Proof.
  simpl. destruct (strip_prefix l s) as [r|] eqn:E.
  - apply strip_prefix_Some in E as ->. split.
    + intros [H|[]]. inversion H; subst. now repeat split.
    + intros (H & -> & ->). left.
      apply (f_equal (strip_prefix l)) in H.
      rewrite !strip_prefix_app in H. now inversion H.
  - split; [intros []|]. intros (-> & _ & _).
    now rewrite strip_prefix_app in E.
Qed.

Lemma in_exec_star p s m rest c :
  In (m, rest, c) (exec (Star p) s) <->
  s = m +:+ rest /\ all p m = true /\ c = [].
Proof.
  simpl. rewrite in_map_iff. split.
  - intros [[m' r'] [E H]]. inversion E; subst.
    apply in_star in H as [-> H]. now repeat split.
  - intros (-> & H & ->). exists (m, rest). split; [reflexivity|].
    apply in_star. now split.
Qed.

Lemma in_exec_plus p s m rest c :
  In (m, rest, c) (exec (Plus p) s) <->
  s = m +:+ rest /\ all p m = true /\ m <> EmptyString /\ c = [].
Proof.
  simpl. rewrite in_map_iff. split.
  - intros [[m' r'] [E H]]. inversion E; subst.
    apply in_plus in H as (-> & H & N). now repeat split.
  - intros (-> & H & N & ->). exists (m, rest). split; [reflexivity|].
    apply in_plus. now repeat split.
Qed.

Lemma in_exec_eps s m rest c :
  In (m, rest, c) (exec Eps s) <-> m = EmptyString /\ rest = s /\ c = [].
Proof.
  simpl. split.
  - intros [E|[]]. inversion E; subst. now repeat split.
  - intros (-> & -> & ->). now left.
Qed.

Lemma in_exec_eol s m rest c :
  In (m, rest, c) (exec Eol s) <->
  at_eol s = true /\ m = EmptyString /\ rest = s /\ c = [].
Proof.
  simpl. destruct (at_eol s).
  - split.
    + intros [E|[]]. inversion E; subst. now repeat split.
    + intros (_ & -> & -> & ->). now left.
  - split; [intros []|]. now intros [? _].
Qed.

Lemma re_match_Some r s c :
  re_match r s = Some c -> exists m rest, In (m, rest, c) (exec r s).
Proof.
  unfold re_match. destruct (exec r s) as [|[[m rest] c'] l]; [discriminate|].
  intros E. inversion E; subst. exists m, rest. now left.
Qed.

Lemma re_match_None r s x : re_match r s = None -> ~ In x (exec r s).
Proof.
  unfold re_match. destruct (exec r s) as [|[[m rest] c'] l]; [|discriminate].
  intros _ [].
Qed.

Lemma re_match_in r s x :
  In x (exec r s) -> exists c, re_match r s = Some c.
Proof.
  unfold re_match. destruct (exec r s) as [|[[m rest] c'] l]; [intros []|].
  intros _. now exists c'.
Qed.

(** A pattern that opens with [(\s* )] and a literal whose first
    character is not white space: group 1 is the white space that the
    line starts with, and the literal follows it. *)
Lemma indent_literal r l s m rest c :
  In (m, rest, c) (exec (Group 1 (Star is_space) +++ Lit l +++ r)%re s) ->
  all is_space (group 1 c) = true /\
  exists tl, s = group 1 c +:+ l +:+ tl.
Proof.
  intros H.
  apply in_exec_cat in H as (m1 & s1 & c1 & m2 & c2 & H1 & H2 & -> & ->).
  apply in_exec_group in H1 as (c' & H1 & ->).
  apply in_exec_star in H1 as (-> & Hsp & ->).
  apply in_exec_cat in H2 as (l' & s2 & c3 & m3 & c4 & H2 & H3 & -> & ->).
  apply in_exec_lit in H2 as (-> & -> & ->).
  simpl. split; [assumption|]. now exists s2.
Qed.

End MatcherFacts.

(** ** The patterns *)

Section PatternFacts.

Lemma charm_match_shape line m :
  re_match CHARM_MATCH line = Some m ->
  all is_space (group 1 m) = true /\
  exists tl, line = group 1 m +:+ "charm:" +:+ tl.
Proof.
  intros H. apply re_match_Some in H as (t & rest & H).
  exact (indent_literal _ _ _ _ _ _ H).
Qed.

Lemma channel_match_shape line m :
  re_match CHANNEL_MATCH line = Some m ->
  all is_space (group 1 m) = true /\
  exists tl, line = group 1 m +:+ "channel:" +:+ tl.
Proof.
  intros H. apply re_match_Some in H as (t & rest & H).
  exact (indent_literal _ _ _ _ _ _ H).
Qed.

(** A reference line starts with its own indent. *)
Lemma charm_match_startswith line m :
  re_match CHARM_MATCH line = Some m ->
  startswith line (group 1 m) = true.
Proof.
  intros H. apply charm_match_shape in H as [_ [tl E]].
  rewrite E at 1. apply startswith_app.
Qed.

(** No line is a reference line and a channel line at once. *)
Lemma charm_not_channel line m :
  re_match CHARM_MATCH line = Some m ->
  re_match CHANNEL_MATCH line = None.
Proof.
  intros H. destruct (re_match CHANNEL_MATCH line) as [m'|] eqn:E;
    [exfalso|reflexivity].
  apply charm_match_shape in H as [Hs [tl Hl]].
  apply channel_match_shape in E as [Hs' [tl' Hl']].
  rewrite Hl in Hl'. simpl in Hl'.
  apply run_unique with (p := is_space) in Hl' as [_ Hl'];
    [|assumption|assumption|reflexivity|reflexivity].
  discriminate Hl'.
Qed.

Lemma charm_not_block_channel ind line m :
  re_match CHARM_MATCH line = Some m -> is_block_channel ind line = false.
Proof.
  intros H. unfold is_block_channel. now rewrite (charm_not_channel _ _ H).
Qed.

(** The line that the engine writes for a channel is recognised as the
    channel line of the block it was written for. *)
Lemma channel_line_recognised ind ch :
  all is_space ind = true -> is_channel_token ch = true ->
  is_block_channel ind (channel_line ind ch) = true.
Proof.
  intros Hind Hch. unfold is_channel_token in Hch.
  apply andb_prop in Hch as [Hne Hns].
  assert (Hin : In (ind +:+ "channel: " +:+ ch, nl,
                    [(1, ind); (2, ch)])
                   (exec CHANNEL_MATCH (channel_line ind ch))).
  { unfold CHANNEL_MATCH, channel_line.
    apply in_exec_cat.
    exists ind, ("channel: " +:+ ch +:+ nl), [(1, ind)],
           ("channel: " +:+ ch), [(2, ch)].
    split; [|split; [|split]].
    - apply in_exec_group. exists []. split; [|reflexivity].
      apply in_exec_star. now repeat split.
    - apply in_exec_cat.
      exists "channel:", (" " +:+ ch +:+ nl), [], (" " +:+ ch), [(2, ch)].
      split; [|split; [|split]]; [| |reflexivity|reflexivity].
      + apply in_exec_lit. now repeat split.
      + apply in_exec_cat.
        exists " ", (ch +:+ nl), [], ch, [(2, ch)].
        split; [|split; [|split]]; [| |reflexivity|reflexivity].
        * apply in_exec_plus. repeat split; try reflexivity. discriminate.
        * apply in_exec_cat.
          exists ch, nl, [(2, ch)], EmptyString, [].
          split; [|split; [|split]];
            [| |now rewrite append_empty_r|reflexivity].
          -- apply in_exec_group. exists []. split; [|reflexivity].
             apply in_exec_plus. repeat split; try assumption.
             intros ->. discriminate Hne.
          -- unfold line_tail. apply in_exec_cat.
             exists EmptyString, nl, [], EmptyString, [].
             split; [|split; [|split]]; [| |reflexivity|reflexivity].
             ++ apply in_exec_star. now repeat split.
             ++ apply in_exec_cat.
                exists EmptyString, nl, [], EmptyString, [].
                split; [|split; [|split]]; [| |reflexivity|reflexivity].
                ** apply in_exec_alt. left. apply in_exec_eps. now repeat split.
                ** apply in_exec_eol. now repeat split.
    - reflexivity.
    - reflexivity. }
  unfold is_block_channel.
  destruct (re_match_in _ _ _ Hin) as [m Hm]. rewrite Hm.
  apply String.eqb_eq.
  apply channel_match_shape in Hm as [Hs [tl Hl]].
  unfold channel_line in Hl. simpl in Hl.
  apply run_unique with (p := is_space) in Hl as [Hl _];
    [congruence|assumption|assumption|reflexivity|reflexivity].
Qed.

End PatternFacts.

(** ** Channel resolution *)

Section ResolutionFacts.

Variable lp_config : LpConfig.
Variable channel : option string.
Variable ignore_tracks : list string.

(** The scan of one candidate list stops at the first candidate that no
    ignored prefix starts. *)
Lemma scan_tracks_find (tracks : list string) :
  scan_tracks ignore_tracks tracks =
  List.find (fun t => negb (ignored t ignore_tracks)) tracks.
Proof.
  induction tracks as [|t rest IH]; simpl; [reflexivity|].
  destruct ignore_tracks as [|i more] eqn:E; [reflexivity|].
  rewrite <- E in *.
  destruct (ignored t ignore_tracks); simpl; [exact IH | reflexivity].
Qed.

(** C2, as the code has it: within the candidate list of a branch,
    resolution returns the first candidate that starts with none of the
    ignored prefixes (the first candidate when nothing is ignored); an
    ignored first candidate is passed over and the later candidates of
    the same list are inspected in order.  Only when every candidate of
    the list is ignored does resolution go on to the next branch. *)
Theorem C2_first_unignored_candidate
    (c branch : string) (branches' tracks : list string) :
  lp_config !! c ≫= (fun by_branch => by_branch !! branch) = Some tracks ->
  _get_channel lp_config channel (branch :: branches') ignore_tracks (Some c) =
  match List.find (fun t => negb (ignored t ignore_tracks)) tracks with
  | Some t => Some t
  | None => scan_branches lp_config ignore_tracks c branches'
  end.
Proof.
  intros H. simpl. rewrite H, scan_tracks_find. reflexivity.
Qed.

End ResolutionFacts.

(** C2, an instance: the first candidate of the list is ignored, the
    second is returned. *)
Lemma C2_first_unignored_candidate_witness :
  _get_channel
    {[ "nova-compute" := {[ "stable/queens" := ["22.08/stable"; "latest/edge"] ]} ]}
    None ["stable/queens"] ["22.08"] (Some "nova-compute")
  = Some "latest/edge".
Proof.
  rewrite (C2_first_unignored_candidate _ None ["22.08"] "nova-compute"
             "stable/queens" [] ["22.08/stable"; "latest/edge"]).
  - reflexivity.
  - vm_compute. reflexivity.
Defined.

(** C2 as the spec words it fails: the ignored prefixes are not empty and
    the first candidate of the branch's list starts with one of them, yet
    resolution does not return null but the second candidate of that
    list. *)
Lemma C2_counterexample :
  let ignore_tracks := ["22.08"] in
  let tracks := ["22.08/stable"; "latest/edge"] in
  let lp_config : LpConfig :=
    {[ "nova-compute" := {[ "stable/queens" := tracks ]} ]} in
  ignore_tracks <> [] /\
  ignored "22.08/stable" ignore_tracks = true /\
  _get_channel lp_config None ["stable/queens"] ignore_tracks
    (Some "nova-compute") = Some "latest/edge".
Proof. vm_compute. repeat split. discriminate. Qed.

(** ** The rewrite loop *)

(** The sections below abbreviate the functions of the loop applied to the
    arguments at hand; these tactics unfold the functions themselves. *)
Ltac unfold_step := unfold step.
Ltac unfold_detect := unfold detect_reference.
Ltac unfold_close := unfold close_block.
Ltac unfold_finish := unfold finish.
Tactic Notation "unfold_tracking" "in" hyp(H) := unfold tracking in H.
Ltac unfold_inert := unfold inert.

Section LoopFacts.

Variable charms : list string.
Variable lp_config : LpConfig.
Variable channel : option string.
Variable branches : list string.
Variable ensure_charmhub_prefix : bool.
Variable ignore_tracks : list string.

Local Abbreviation step :=
  (step charms lp_config channel branches ensure_charmhub_prefix ignore_tracks).
Local Abbreviation steps :=
  (steps charms lp_config channel branches ensure_charmhub_prefix ignore_tracks).
Local Abbreviation run :=
  (run charms lp_config channel branches ensure_charmhub_prefix ignore_tracks).
Local Abbreviation finish :=
  (finish lp_config channel branches ignore_tracks).
Local Abbreviation close_block :=
  (close_block lp_config channel branches ignore_tracks).
Local Abbreviation detect_reference :=
  (detect_reference charms lp_config branches ensure_charmhub_prefix).
Local Abbreviation is_valid_charm := (is_valid_charm charms lp_config branches).

Lemma steps_cons st line rest :
  steps st (line :: rest) =
  (fst (step st line) ++ fst (steps (snd (step st line)) rest),
   snd (steps (snd (step st line)) rest)).
Proof.
  simpl. destruct (step st line) as [out st']. simpl.
  destruct (steps st' rest) as [outs st'']. reflexivity.
Qed.

Lemma steps_app st l1 l2 :
  steps st (l1 ++ l2) =
  (fst (steps st l1) ++ fst (steps (snd (steps st l1)) l2),
   snd (steps (snd (steps st l1)) l2)).
Proof.
  revert st; induction l1 as [|line l1 IH]; intros st.
  - simpl. now destruct (steps st l2).
  - rewrite <- app_comm_cons, !steps_cons, IH. simpl.
    now rewrite app_assoc.
Qed.

Lemma run_nil st : run st [] = finish st.
Proof. reflexivity. Qed.

Lemma run_cons st line rest :
  run st (line :: rest) = fst (step st line) ++ run (snd (step st line)) rest.
Proof.
  unfold run. rewrite steps_cons.
  destruct (steps (snd (step st line)) rest) as [outs st'']. simpl.
  now rewrite app_assoc.
Qed.

Lemma run_app st l1 l2 :
  run st (l1 ++ l2) = fst (steps st l1) ++ run (snd (steps st l1)) l2.
Proof.
  unfold run. rewrite steps_app.
  destruct (steps (snd (steps st l1)) l2) as [outs st'']. simpl.
  now rewrite app_assoc.
Qed.

(** The loop in a state with no block open. *)
Lemma step_no_block st line :
  indent st = None ->
  step st line = ([fst (detect_reference st line)],
                  snd (detect_reference st line)).
Proof.
  intros H. unfold_step. rewrite H.
  now destruct (detect_reference st line).
Qed.

(** The line that ends a block: the block is closed first, then the line
    is treated as if no block had been open. *)
Lemma step_block_end st ind line :
  indent st = Some ind -> startswith line ind = false ->
  step st line =
  (close_block ind (current_charm st) ++ fst (step idle line),
   snd (step idle line)).
Proof.
  intros H Hs. rewrite (step_no_block idle line eq_refl).
  unfold_step. rewrite H, Hs.
  now destruct (detect_reference idle line).
Qed.

Lemma detect_reference_settled st line :
  settled st -> settled (snd (detect_reference st line)).
Proof.
  intros H. unfold_detect.
  destruct (re_match CHARM_MATCH line) as [m|].
  - destruct (is_valid_charm (group 3 m)); simpl; [|assumption].
    intros E; discriminate E.
  - destruct (re_match ANY_CHARM_MATCH line) as [am|]; [|assumption].
    now destruct ensure_charmhub_prefix.
Qed.

Lemma step_settled st line : settled st -> settled (snd (step st line)).
Proof.
  intros H. unfold_step.
  destruct (indent st) as [ind|] eqn:E.
  - destruct (startswith line ind).
    + destruct (is_block_channel ind line); simpl; [now intros _|].
      pose proof (detect_reference_settled st line H) as Hd.
      now destruct (detect_reference st line).
    + pose proof (detect_reference_settled idle line (fun _ => eq_refl)) as Hd.
      now destruct (detect_reference idle line).
  - pose proof (detect_reference_settled st line H) as Hd.
    now destruct (detect_reference st line).
Qed.

Lemma steps_settled st l : settled st -> settled (snd (steps st l)).
Proof.
  revert st; induction l as [|line l IH]; intros st H; [assumption|].
  rewrite steps_cons. simpl. apply IH, step_settled, H.
Qed.

(** The channel line of an open block whose charm resolves to nothing is
    dropped, in every mode. *)
Lemma step_channel_line_unresolved st ind line :
  indent st = Some ind ->
  startswith line ind = true ->
  is_block_channel ind line = true ->
  _get_channel lp_config channel branches ignore_tracks (current_charm st)
    = None ->
  step st line = ([], idle).
Proof.
  intros Hi Hs Hc Hn. unfold_step. rewrite Hi, Hs, Hc.
  unfold_close. rewrite Hn. now destruct (wants_channel channel branches).
Qed.

(** A reference that the strict pattern matches for a charm that is not
    eligible is passed on as it is, whether or not the prefix is to be
    ensured: the looser pattern is not consulted. *)
Lemma detect_reference_ineligible st line m :
  re_match CHARM_MATCH line = Some m ->
  is_valid_charm (group 3 m) = false ->
  detect_reference st line = (line, st).
Proof. intros Hm Hv. unfold_detect. now rewrite Hm, Hv. Qed.

(** C9: a block is open at indent [ind] for a charm, and the line is a
    reference line at that same indent for an eligible charm.  The turn
    of the loop writes the reference line and nothing else, so no
    channel line is written for the block that was open, and the state
    is overwritten by the new reference: the rest of the file is
    treated as the block of the second charm, whatever the first charm
    was. *)
Theorem C9_sibling_reference_overwrites_block
    (st : state) (line ind : string) (m : caps) (rest : list string) :
  indent st = Some ind ->
  re_match CHARM_MATCH line = Some m ->
  group 1 m = ind ->
  is_valid_charm (group 3 m) = true ->
  let line' :=
    if ensure_charmhub_prefix && negb (String.eqb (group 2 m) "ch:")
    then replace line (group 2 m) "ch:" else line in
  step st line = ([line'], State (Some ind) (Some (group 3 m))) /\
  run st (line :: rest) =
    line' :: run (State (Some ind) (Some (group 3 m))) rest.
Proof.
  intros Hi Hm Hg Hv line'.
  assert (Hs : step st line = ([line'], State (Some ind) (Some (group 3 m)))).
  { unfold_step. rewrite Hi.
    pose proof (charm_match_startswith _ _ Hm) as Hsw. rewrite Hg in Hsw.
    rewrite Hsw, (charm_not_block_channel ind _ _ Hm).
    unfold_detect. rewrite Hm, Hv, Hg. reflexivity. }
  split; [exact Hs|]. rewrite run_cons, Hs. reflexivity.
Qed.

End LoopFacts.

(** ** Rewriting twice *)

Section LoopStates.

Variable charms : list string.
Variable lp_config : LpConfig.
Variable channel : option string.
Variable branches : list string.
Variable ignore_tracks : list string.

(** No prefix is rewritten in this section. *)
Local Abbreviation step :=
  (step charms lp_config channel branches false ignore_tracks).
Local Abbreviation close_block :=
  (close_block lp_config channel branches ignore_tracks).
Local Abbreviation detect_reference :=
  (detect_reference charms lp_config branches false).
Local Abbreviation tracking := (tracking charms lp_config branches).

Lemma detect_reference_keeps_line st line :
  fst (detect_reference st line) = line.
Proof.
  unfold_detect.
  destruct (re_match CHARM_MATCH line) as [m|].
  - now destruct (is_valid_charm _ _ _ _).
  - now destruct (re_match ANY_CHARM_MATCH line).
Qed.

Lemma detect_reference_tracking st line :
  tracking st -> tracking (snd (detect_reference st line)).
Proof.
  intros H. unfold_detect.
  destruct (re_match CHARM_MATCH line) as [m|] eqn:Hm.
  - destruct (is_valid_charm _ _ _ (group 3 m)) eqn:Hv; [|exact H].
    simpl. split.
    + now apply charm_match_shape in Hm as [Hs _].
    + now exists (group 3 m).
  - now destruct (re_match ANY_CHARM_MATCH line).
Qed.

Lemma tracking_idle : tracking idle.
Proof. exact I. Qed.

Lemma tracking_step st line : tracking st -> tracking (snd (step st line)).
Proof.
  intros H. unfold_step. destruct (indent st) as [ind|] eqn:Hi.
  - destruct (startswith line ind).
    + destruct (is_block_channel ind line); [exact I|].
      pose proof (detect_reference_tracking st line H) as Ht.
      now destruct (detect_reference st line).
    + pose proof (detect_reference_tracking idle line I) as Ht.
      now destruct (detect_reference idle line).
  - pose proof (detect_reference_tracking st line H) as Ht.
    now destruct (detect_reference st line).
Qed.

(** The channel line written for a block, read in the state of that
    block, is replaced by itself and closes the block. *)
Lemma step_own_channel_line st ind ch :
  indent st = Some ind ->
  close_block ind (current_charm st) = [channel_line ind ch] ->
  is_block_channel ind (channel_line ind ch) = true ->
  step st (channel_line ind ch) = ([channel_line ind ch], idle).
Proof.
  intros Hi Hcl Hrec. unfold_step. rewrite Hi.
  assert (Hsw : startswith (channel_line ind ch) ind = true)
    by apply startswith_app.
  now rewrite Hsw, Hrec, Hcl.
Qed.

End LoopStates.

(** ** Removing, then setting *)

Section RemoveThenSet.

Variable charms : list string.
Variable lp_config : LpConfig.
Variable ignore_tracks : list string.
Variable x : string.

(** Removal and setting, both without branches and without touching the
    prefix. *)
Local Abbreviation run_remove := (run charms lp_config None [] false ignore_tracks).
Local Abbreviation run_set := (run charms lp_config (Some x) [] false ignore_tracks).
Local Abbreviation step_remove := (step charms lp_config None [] false ignore_tracks).
Local Abbreviation step_set := (step charms lp_config (Some x) [] false ignore_tracks).
Local Abbreviation close_set := (close_block lp_config (Some x) [] ignore_tracks).
Local Abbreviation detect := (detect_reference charms lp_config [] false).

Lemma close_block_remove ind cur :
  close_block lp_config None [] ignore_tracks ind cur = [].
Proof. reflexivity. Qed.

(** The state moves the same way whatever the channel is. *)
Lemma step_state_same st line :
  snd (step_remove st line) = snd (step_set st line).
Proof.
  unfold_step. destruct (indent st) as [ind|]; [|now destruct (detect st line)].
  destruct (startswith line ind).
  - destruct (is_block_channel ind line); [reflexivity|].
    now destruct (detect st line).
  - now destruct (detect idle line).
Qed.

(** Outside the channel line of a block, removal writes the line. *)
Lemma step_remove_line st line :
  (forall ind, indent st = Some ind ->
               startswith line ind && is_block_channel ind line = false) ->
  fst (step_remove st line) = [line].
Proof.
  intros H. unfold_step. destruct (indent st) as [ind|].
  - specialize (H ind eq_refl). destruct (startswith line ind).
    + simpl in H. rewrite H.
      pose proof (detect_reference_keeps_line charms lp_config [] st line) as Hk.
      destruct (detect st line); simpl in *; now subst.
    + pose proof (detect_reference_keeps_line charms lp_config [] idle line) as Hk.
      destruct (detect idle line); simpl in *; now subst.
  - pose proof (detect_reference_keeps_line charms lp_config [] st line) as Hk.
    destruct (detect st line); simpl in *; now subst.
Qed.

(** Setting, in a block that the next line ends: the channel line comes
    first, and the rest is as from the idle state. *)
Lemma run_set_block_end st ind l :
  indent st = Some ind ->
  match l with [] => True | next :: _ => startswith next ind = false end ->
  run_set st l = close_set ind (current_charm st) ++ run_set idle l.
Proof.
  intros Hi H. destruct l as [|next l].
  - rewrite !run_nil. unfold_finish. rewrite Hi. simpl.
    now rewrite app_nil_r.
  - rewrite !run_cons.
    rewrite (step_block_end _ _ _ _ _ _ st ind next Hi H). cbn [fst snd].
    now rewrite app_assoc.
Qed.

(** What removal leaves of a file starts with the first line of the
    file, when no block is open. *)
Lemma run_remove_head l :
  match l with
  | [] => run_remove idle l = []
  | next :: _ => exists tl, run_remove idle l = next :: tl
  end.
Proof.
  destruct l as [|next l]; [reflexivity|].
  rewrite run_cons.
  rewrite (step_remove_line idle next); [|discriminate].
  now eexists.
Qed.

Lemma remove_then_set st l :
  channel_ends_block charms lp_config None [] false ignore_tracks st l = true ->
  run_set st (run_remove st l) = run_set st l.
Proof.
  revert st; induction l as [|line l IH]; intros st H.
  - rewrite (run_nil _ _ None). unfold_finish.
    destruct (indent st); reflexivity.
  - simpl in H. apply andb_prop in H as [Hhere Hrest].
    rewrite !run_cons.
    destruct (indent st) as [ind|] eqn:Hi.
    + destruct (startswith line ind && is_block_channel ind line) eqn:Hc.
      * (* the channel line of the block: dropped by removal *)
        apply andb_prop in Hc as [Hsw Hbc].
        assert (Hr : step_remove st line = ([], idle)).
        { unfold_step. now rewrite Hi, Hsw, Hbc. }
        assert (Hs : step_set st line
                     = (close_set ind (current_charm st), idle)).
        { unfold_step. now rewrite Hi, Hsw, Hbc. }
        rewrite Hr in Hrest |- *. rewrite Hs. cbn [fst snd app].
        specialize (IH idle Hrest).
        assert (Hend : match run_remove idle l with
                       | [] => True
                       | next :: _ => startswith next ind = false
                       end).
        { pose proof (run_remove_head l) as Hh.
          destruct l as [|next l'].
          - now rewrite Hh.
          - destruct Hh as [tl ->]. now apply negb_true_iff. }
        rewrite (run_set_block_end st ind _ Hi Hend). now rewrite IH.
      * rewrite (step_remove_line st line).
        2:{ intros ind' E. rewrite Hi in E. now inversion E; subst. }
        cbn [app]. rewrite run_cons, <- step_state_same.
        now rewrite (IH _ Hrest).
    + rewrite (step_remove_line st line).
      2:{ intros ind' E. rewrite Hi in E. discriminate E. }
      cbn [app]. rewrite run_cons, <- step_state_same.
      now rewrite (IH _ Hrest).
Qed.


End RemoveThenSet.



(** With the prefix to be ensured the two differ as well: removal turns a
    foreign [cs:] reference into one that the later pass takes for a
    reference to an eligible charm. *)
Example remove_then_set_with_prefix :
  let file_lines := [ln "  charm: cs:~someone/nova-compute"] in
  let remove := modify_channel ["nova-compute"] ∅ None [] true [] in
  let set := modify_channel ["nova-compute"] ∅ (Some "candidate") [] true [] in
  set file_lines = [ln "  charm: ch:nova-compute"] /\
  set (remove file_lines) =
    [ln "  charm: ch:nova-compute"; ln "  channel: candidate"].
Proof. vm_compute. split; reflexivity. Qed.

(** ** Lines that are left alone *)

Section Frame.

Variable charms : list string.
Variable lp_config : LpConfig.
Variable channel : option string.
Variable branches : list string.
Variable ensure_charmhub_prefix : bool.
Variable ignore_tracks : list string.

Local Abbreviation step :=
  (step charms lp_config channel branches ensure_charmhub_prefix ignore_tracks).
Local Abbreviation steps :=
  (steps charms lp_config channel branches ensure_charmhub_prefix ignore_tracks).
Local Abbreviation run :=
  (run charms lp_config channel branches ensure_charmhub_prefix ignore_tracks).
Local Abbreviation finish := (finish lp_config channel branches ignore_tracks).
Local Abbreviation detect_reference :=
  (detect_reference charms lp_config branches ensure_charmhub_prefix).
Local Abbreviation is_valid_charm := (is_valid_charm charms lp_config branches).
Local Abbreviation inert :=
  (inert charms lp_config branches ensure_charmhub_prefix).

Lemma detect_reference_inert st line :
  inert line = true -> detect_reference st line = (line, st).
Proof.
  unfold_inert. unfold_detect.
  destruct (re_match CHARM_MATCH line) as [m|].
  - now destruct (is_valid_charm (group 3 m)).
  - destruct (re_match ANY_CHARM_MATCH line); [|reflexivity].
    now destruct ensure_charmhub_prefix.
Qed.

(** A reference to a charm that is not eligible is inert when its prefix
    is not one that is to be rewritten. *)
Lemma ineligible_reference_inert line m :
  re_match CHARM_MATCH line = Some m ->
  is_valid_charm (group 3 m) = false ->
  (ensure_charmhub_prefix = true -> group 2 m = "ch:") ->
  inert line = true.
Proof.
  intros Hm Hv Hp. unfold_inert. rewrite Hm, Hv. cbn [negb andb].
  destruct ensure_charmhub_prefix; [|reflexivity].
  rewrite (Hp eq_refl). reflexivity.
Qed.

Lemma steps_inert body :
  forallb inert body = true -> steps idle body = (body, idle).
Proof.
  induction body as [|line body IH]; intros H; [reflexivity|].
  simpl in H. apply andb_prop in H as [Hl Hb].
  rewrite steps_cons, (step_no_block _ _ _ _ _ _ idle line eq_refl).
  rewrite (detect_reference_inert idle line Hl). cbn [fst snd].
  now rewrite (IH Hb).
Qed.

(** C6, as the code has it: take a reference line for a charm that is
    not eligible, with the prefix [ch:] if the prefix is to be ensured.
    In every state of the loop it is written as it stands and opens no
    block: inside an open block the state stays as it is, and a block
    that ends at this line gets its channel line before the reference
    and the state is reset.  When the block that is open before it, if
    any, does not reach over it, then it and the lines after it are
    written unchanged and in one piece for as long as these lines are
    inert: none is a reference to an eligible charm or, if the prefix is
    to be ensured, a reference with a [cs:] prefix.  Before them come the
    output for the lines before and the channel line of the block that
    the reference ends; after them the output for the remaining lines. *)
Theorem C6_ineligible_reference_frame
    (pre body post : list string) (ref : string) (m : caps) :
  re_match CHARM_MATCH ref = Some m ->
  is_valid_charm (group 3 m) = false ->
  (ensure_charmhub_prefix = true -> group 2 m = "ch:") ->
  (forall st : state,
     step st ref =
     match indent st with
     | Some ind =>
         if startswith ref ind then ([ref], st)
         else (close_block lp_config channel branches ignore_tracks
                 ind (current_charm st) ++ [ref], idle)
     | None => ([ref], st)
     end) /\
  ((forall ind, indent (snd (steps idle pre)) = Some ind ->
                startswith ref ind = false) ->
   forallb inert body = true ->
   modify_channel charms lp_config channel branches ensure_charmhub_prefix
     ignore_tracks (pre ++ ref :: body ++ post)
   = fst (steps idle pre) ++ finish (snd (steps idle pre))
       ++ ref :: body
       ++ modify_channel charms lp_config channel branches
            ensure_charmhub_prefix ignore_tracks post).
Proof.
  intros Hm Hv Hp.
  assert (Hany : forall st : state,
     step st ref =
     match indent st with
     | Some ind =>
         if startswith ref ind then ([ref], st)
         else (close_block lp_config channel branches ignore_tracks
                 ind (current_charm st) ++ [ref], idle)
     | None => ([ref], st)
     end).
  { intros st. destruct (indent st) as [ind|] eqn:E.
    - destruct (startswith ref ind) eqn:Hs.
      + unfold_step. rewrite E, Hs, (charm_not_block_channel ind _ _ Hm).
        now rewrite (detect_reference_ineligible _ _ _ _ st ref m Hm Hv).
      + rewrite (step_block_end _ _ _ _ _ _ _ ind ref E Hs).
        rewrite (step_no_block _ _ _ _ _ _ idle ref eq_refl).
        now rewrite (detect_reference_ineligible _ _ _ _ idle ref m Hm Hv).
    - rewrite (step_no_block _ _ _ _ _ _ st ref E).
      now rewrite (detect_reference_ineligible _ _ _ _ st ref m Hm Hv). }
  split; [exact Hany|].
  intros Hopen Hbody. unfold modify_channel.
  rewrite run_app. f_equal.
  assert (Hstep : step (snd (steps idle pre)) ref
                  = (finish (snd (steps idle pre)) ++ [ref], idle)).
  { pose proof (steps_settled charms lp_config channel branches
                  ensure_charmhub_prefix ignore_tracks idle pre
                  (fun _ => eq_refl)) as Hs.
    rewrite Hany. unfold_finish.
    destruct (indent (snd (steps idle pre))) as [ind|] eqn:E.
    - now rewrite (Hopen ind eq_refl).
    - now rewrite (Hs E). }
  rewrite run_cons, Hstep. cbn [fst snd].
  rewrite <- app_assoc. f_equal. cbn [app]. f_equal.
  rewrite run_app, (steps_inert body Hbody). reflexivity.
Qed.

End Frame.

(** C6, an instance: the block of an ineligible charm between two
    others. *)
Lemma C6_ineligible_reference_frame_witness :
  let rewrite_ := modify_channel ["nova-compute"] ∅ (Some "candidate") [] true [] in
  let pre := [ln "  nova-compute:"; ln "    charm: cs:~openstack-charmers/nova-compute"] in
  let ref := ln "  charm: ch:keystone" in
  let body := [ln "  num_units: 1"; ln "  channel: latest/edge"] in
  let post := [ln "  nova-compute:"; ln "    charm: ch:nova-compute"] in
  rewrite_ (pre ++ ref :: body ++ post)
  = [ln "  nova-compute:"; ln "    charm: ch:nova-compute";
     ln "    channel: candidate"]
    ++ ref :: body ++ rewrite_ post.
Proof.
  intros rewrite_ pre ref body post.
  refine (proj2 (C6_ineligible_reference_frame ["nova-compute"] ∅
                   (Some "candidate") [] true [] pre body post ref
                   [(1, "  "); (2, "ch:"); (3, "keystone")] _ _ _) _ _).
  - vm_compute. reflexivity.
  - vm_compute. reflexivity.
  - reflexivity.
  - intros ind H. vm_compute in H. inversion H; subst ind.
    vm_compute. reflexivity.
  - vm_compute. reflexivity.
Defined.

(** C6 as the spec words it fails: the block of a reference to a charm
    that is not eligible holds a reference to one that is, and the channel
    line of that one is replaced.  The block, from its reference line to
    its terminating line, is not a piece of the output. *)
Lemma C6_counterexample :
  let charms := ["nova-compute"] in
  let ref := ln "    charm: ch:foo" in
  let rest :=
    [ln "    sub:"; ln "      charm: ch:nova-compute";
     ln "      channel: latest/edge"; ln "  bar:"] in
  let out :=
    modify_channel charms ∅ (Some "candidate") [] false []
      (ln "  foo:" :: ref :: rest) in
  re_match CHARM_MATCH ref = Some [(1, "    "); (2, "ch:"); (3, "foo")] /\
  is_valid_charm charms ∅ [] "foo" = false /\
  ref :: block_after "    " rest = ref :: rest /\
  out = [ln "  foo:"; ref; ln "    sub:"; ln "      charm: ch:nova-compute";
         ln "      channel: candidate"; ln "  bar:"] /\
  ~ (exists before after, out = before ++ (ref :: rest) ++ after).
Proof.
  intros charms ref rest out.
  repeat split; try (vm_compute; reflexivity).
  intros (before & after & E).
  assert (H : In (ln "      channel: latest/edge") out).
  { rewrite E. apply in_or_app. right. apply in_or_app. left.
    vm_compute. tauto. }
  vm_compute in H.
  repeat (destruct H as [H|H]; [discriminate H|]). exact H.
Qed.

(** ** Rewriting twice *)

Section FileTextFacts.

Lemma all_impl (p q : ascii -> bool) (s : string) :
  (forall c, p c = true -> q c = true) -> all p s = true -> all q s = true.
Proof.
  intros Hpq. induction s as [|c s IH]; [reflexivity|].
  cbn [all]. intros H. apply andb_prop in H as [Hc Hs].
  now rewrite (Hpq c Hc), (IH Hs).
Qed.

Lemma all_plain (s : string) :
  all is_dot s = true -> all not_cr s = true -> all is_plain s = true.
Proof.
  induction s as [|c s IH]; [reflexivity|]. cbn [all]. intros H1 H2.
  apply andb_prop in H1 as [Hc1 Hs1]. apply andb_prop in H2 as [Hc2 Hs2].
  unfold is_plain at 1. now rewrite Hc1, Hc2, (IH Hs1 Hs2).
Qed.

Lemma plain_dot c : is_plain c = true -> is_dot c = true.
Proof. unfold is_plain. intros H. now apply andb_prop in H as [? _]. Qed.

Lemma plain_not_cr c : is_plain c = true -> not_cr c = true.
Proof. unfold is_plain. intros H. now apply andb_prop in H as [_ ?]. Qed.

(** The two line end characters are white space. *)
Lemma nonspace_plain c : is_nonspace c = true -> is_plain c = true.
Proof.
  unfold is_nonspace. intros H. apply negb_true_iff in H.
  unfold is_plain, is_dot, not_cr.
  destruct (Ascii.eqb c "013") eqn:E.
  - apply Ascii.eqb_eq in E. subst c. vm_compute in H. discriminate H.
  - destruct (Nat.eqb (nat_of_ascii c) 10) eqn:E2; [|reflexivity].
    apply Nat.eqb_eq in E2. unfold is_space in H. rewrite E2 in H.
    vm_compute in H. discriminate H.
Qed.

Lemma plain_line_whole line : plain_line line -> whole_line line.
Proof.
  intros (body & -> & H). exists body. split; [reflexivity|].
  exact (all_impl is_plain is_dot body plain_dot H).
Qed.

Lemma plain_lines_whole lines :
  Forall plain_line lines -> Forall whole_line lines.
Proof.
  induction 1 as [|line lines H _ IH]; constructor;
    [now apply plain_line_whole | exact IH].
Qed.

(** What Python reads has no CR left in it. *)
Lemma translate_newlines_no_cr after_cr text :
  all not_cr (translate_newlines after_cr text) = true.
Proof.
  revert after_cr; induction text as [|c text IH]; intros after_cr;
    [reflexivity|].
  cbn [translate_newlines]. destruct (Ascii.eqb c "013") eqn:E.
  - cbn [all]. now rewrite IH.
  - destruct (Ascii.eqb c "010") eqn:E2.
    + destruct after_cr; [apply IH|]. cbn [all]. now rewrite IH.
    + cbn [all]. unfold not_cr at 1. now rewrite E, IH.
Qed.

(** A text without CR is read as it is. *)
Lemma universal_newlines_id text :
  all not_cr text = true -> universal_newlines text = text.
Proof.
  unfold universal_newlines.
  induction text as [|c text IH]; intros H; [reflexivity|].
  cbn [all] in H. apply andb_prop in H as [Hc Hs].
  cbn [translate_newlines]. unfold not_cr in Hc.
  apply negb_true_iff in Hc. rewrite Hc, (IH Hs).
  destruct (Ascii.eqb c "010") eqn:E; [|reflexivity].
  apply Ascii.eqb_eq in E. now subst c.
Qed.

(** A text that ends with a line feed is read as one that does. *)
Lemma translate_newlines_terminated after_cr t :
  after_cr = false \/ t <> EmptyString ->
  exists u, translate_newlines after_cr (t +:+ nl) = u +:+ nl.
Proof.
  revert after_cr; induction t as [|c t IH]; intros after_cr H.
  - destruct H as [->|H]; [|congruence]. now exists EmptyString.
  - cbn [String.append translate_newlines].
    destruct (Ascii.eqb c "013").
    + destruct t as [|c' t'].
      * now exists EmptyString.
      * destruct (IH true) as [u Hu]; [right; discriminate|].
        rewrite Hu. now exists (String "010" u).
    + destruct (IH false (or_introl eq_refl)) as [u Hu]. rewrite Hu.
      destruct (Ascii.eqb c "010").
      * destruct after_cr; [now exists u | now exists (String "010" u)].
      * now exists (String c u).
Qed.

Lemma writelines_app (l1 l2 : list string) :
  writelines (l1 ++ l2) = writelines l1 +:+ writelines l2.
Proof.
  induction l1 as [|line l1 IH]; [reflexivity|].
  cbn [app writelines]. now rewrite IH, append_assoc.
Qed.

(** Reading the lines of a text and writing them again gives the text. *)
Lemma writelines_readlines (text : string) : writelines (readlines text) = text.
Proof.
  induction text as [|c text IH]; [reflexivity|]. cbn [readlines].
  destruct (Ascii.eqb c "010").
  - cbn [writelines]. now rewrite IH.
  - destruct (readlines text) as [|line lines].
    + cbn [writelines] in *. now rewrite <- IH.
    + cbn [writelines] in *. now rewrite <- IH.
Qed.

Lemma readlines_whole_line (body : string) (rest : string) :
  all is_dot body = true ->
  readlines ((body +:+ nl) +:+ rest) = (body +:+ nl) :: readlines rest.
Proof.
  induction body as [|c body IH]; intros H; [reflexivity|].
  cbn [all] in H. apply andb_prop in H as [Hc Hb].
  cbn [String.append readlines].
  assert (E : Ascii.eqb c "010" = false).
  { unfold is_dot in Hc. apply negb_true_iff, Nat.eqb_neq in Hc.
    apply Ascii.eqb_neq. intros ->. now apply Hc. }
  rewrite E. cbn [String.append] in IH. now rewrite (IH Hb).
Qed.

(** Whole lines written one after the other are read as they were
    written. *)
Lemma readlines_writelines (lines : list string) :
  Forall whole_line lines -> readlines (writelines lines) = lines.
Proof.
  induction 1 as [|line lines (body & -> & Hb) _ IH]; [reflexivity|].
  cbn [writelines]. now rewrite (readlines_whole_line body _ Hb), IH.
Qed.

(** A text that ends with a line feed consists of whole lines. *)
Lemma readlines_terminated (t : string) :
  Forall whole_line (readlines (t +:+ nl)) /\ readlines (t +:+ nl) <> [].
Proof.
  induction t as [|c t [IH Hne]].
  - split; [|discriminate]. repeat constructor. now exists EmptyString.
  - cbn [String.append readlines]. destruct (Ascii.eqb c "010") eqn:E.
    + split; [|discriminate]. constructor; [|exact IH].
      apply Ascii.eqb_eq in E as ->. now exists EmptyString.
    + destruct (readlines (t +:+ nl)) as [|line lines]; [congruence|].
      split; [|discriminate].
      apply Forall_cons in IH as [(body & -> & Hb) IH].
      constructor; [|exact IH]. exists (String c body). split; [reflexivity|].
      cbn [all]. rewrite Hb, andb_true_r. unfold is_dot.
      apply negb_true_iff, Nat.eqb_neq. intros Hn.
      apply Ascii.eqb_neq in E. apply E.
      rewrite <- (ascii_nat_embedding c), Hn. reflexivity.
Qed.

(** The lines of a text have the characters of the text. *)
Lemma readlines_all (p : ascii -> bool) (text : string) :
  all p text = true -> Forall (fun line => all p line = true) (readlines text).
Proof.
  induction text as [|c text IH]; intros H; [constructor|].
  cbn [all] in H. apply andb_prop in H as [Hc Hs]. specialize (IH Hs).
  cbn [readlines]. destruct (Ascii.eqb c "010").
  - constructor; [|exact IH]. cbn [all]. now rewrite Hc.
  - destruct (readlines text) as [|line lines].
    + repeat constructor. cbn [all]. now rewrite Hc.
    + apply Forall_cons in IH as [H1 H2]. constructor; [|exact H2].
      cbn [all]. now rewrite Hc, H1.
Qed.

Lemma readlines_plain (text : string) :
  text = EmptyString \/ (exists t, text = t +:+ nl) ->
  all not_cr text = true -> Forall plain_line (readlines text).
Proof.
  intros Hend Hcr.
  assert (Hw : Forall whole_line (readlines text))
    by (destruct Hend as [->|[t ->]]; [constructor | apply readlines_terminated]).
  pose proof (readlines_all not_cr text Hcr) as Ha.
  induction Hw as [|line lines (body & -> & Hb) _ IH]; [constructor|].
  apply Forall_cons in Ha as [Hc Ha]. constructor; [|now apply IH].
  exists body. split; [reflexivity|].
  rewrite all_app in Hc. apply andb_prop in Hc as [Hc _].
  now apply all_plain.
Qed.

Lemma writelines_plain (lines : list string) :
  Forall plain_line lines -> all not_cr (writelines lines) = true.
Proof.
  induction 1 as [|line lines (body & -> & Hb) _ IH]; [reflexivity|].
  cbn [writelines]. rewrite !all_app, IH.
  now rewrite (all_impl is_plain not_cr body plain_not_cr Hb).
Qed.

(** White space before [charm:] in a line is text of that line, before
    its line feed. *)
Lemma indent_of_line (p : ascii -> bool) (g r body : string) :
  g +:+ String "c" r = body +:+ nl -> all p body = true ->
  all p g = true.
Proof.
  revert body; induction g as [|a g IH]; intros body E Hb; [reflexivity|].
  destruct body as [|b body].
  - cbn in E. inversion E as [[Ha E']]. destruct g; discriminate E'.
  - cbn [String.append] in E. inversion E; subst b.
    cbn [all] in *. apply andb_prop in Hb as [-> Hb]. cbn [andb].
    now apply (IH body).
Qed.

End FileTextFacts.

Section RewriteTwice.

Variable charms : list string.
Variable lp_config : LpConfig.
Variable channel : option string.
Variable branches : list string.
Variable ignore_tracks : list string.

(** The channel that an eligible charm resolves to, if any, reads back
    as a channel: it is not empty and has no white space in it. *)
Hypothesis tokens :
  forall c ch,
    is_valid_charm charms lp_config branches c = true ->
    _get_channel lp_config channel branches ignore_tracks (Some c) = Some ch ->
    is_channel_token ch = true.

(** No prefix is rewritten in this section. *)
Local Abbreviation step :=
  (step charms lp_config channel branches false ignore_tracks).
Local Abbreviation run :=
  (run charms lp_config channel branches false ignore_tracks).
Local Abbreviation close_block :=
  (close_block lp_config channel branches ignore_tracks).
Local Abbreviation detect_reference :=
  (detect_reference charms lp_config branches false).
Local Abbreviation tracking := (tracking charms lp_config branches).

(** Closing the block of an eligible charm writes nothing, or one
    channel line that reads back as the channel line of the block. *)
Lemma close_block_cases st ind :
  tracking st -> indent st = Some ind ->
  close_block ind (current_charm st) = [] \/
  exists ch, close_block ind (current_charm st) = [channel_line ind ch] /\
             is_block_channel ind (channel_line ind ch) = true /\
             is_channel_token ch = true.
Proof.
  intros H Hi. unfold_tracking in H. rewrite Hi in H.
  destruct H as (Hsp & c & Hc & Hv). unfold_close. rewrite Hc.
  destruct (wants_channel channel branches); [|now left].
  destruct (_get_channel lp_config channel branches ignore_tracks (Some c))
    as [ch|] eqn:Hch; [|now left].
  right. exists ch. pose proof (tokens c ch Hv Hch) as Htok.
  split; [reflexivity|]. split; [|exact Htok].
  now apply channel_line_recognised.
Qed.

(** An open block that has nothing to write and no channel line ahead
    is as good as no block. *)
Lemma run_open_as_idle st ind l :
  indent st = Some ind -> close_block ind (current_charm st) = [] ->
  no_block_channel_ahead charms lp_config branches ind l = true ->
  run st l = run idle l.
Proof.
  intros Hi Hc. induction l as [|line l IH]; intros Hs.
  - rewrite !run_nil. unfold_finish. now rewrite Hi, Hc.
  - cbn [no_block_channel_ahead] in Hs. rewrite !run_cons.
    destruct (startswith line ind) eqn:Hsw.
    + destruct (is_block_channel ind line) eqn:Hbc; [discriminate Hs|].
      assert (Hst : step st line = ([fst (detect_reference st line)],
                                    snd (detect_reference st line))).
      { unfold_step. rewrite Hi, Hsw, Hbc.
        now destruct (detect_reference st line). }
      rewrite Hst, (step_no_block _ _ _ _ _ _ idle line eq_refl).
      unfold_detect. destruct (re_match CHARM_MATCH line) as [m|].
      * destruct (is_valid_charm charms lp_config branches (group 3 m));
          [reflexivity|].
        cbn [fst snd]. now rewrite (IH Hs).
      * destruct (re_match ANY_CHARM_MATCH line); cbn [fst snd];
          now rewrite (IH Hs).
    + rewrite (step_block_end _ _ _ _ _ _ st ind line Hi Hsw), Hc.
      reflexivity.
Qed.

(** The first pass leaves the lines up to the next eligible reference as
    they are. *)
Lemma no_block_channel_ahead_run ind l :
  no_block_channel_ahead charms lp_config branches ind l = true ->
  no_block_channel_ahead charms lp_config branches ind (run idle l) = true.
Proof.
  induction l as [|line l IH]; intros Hs; [now rewrite run_nil|].
  rewrite run_cons, (step_no_block _ _ _ _ _ _ idle line eq_refl).
  cbn [fst snd app].
  rewrite (detect_reference_keeps_line charms lp_config branches idle line).
  cbn [no_block_channel_ahead] in *.
  destruct (startswith line ind); [|reflexivity].
  destruct (is_block_channel ind line); [discriminate Hs|].
  unfold_detect. destruct (re_match CHARM_MATCH line) as [m|].
  - destruct (is_valid_charm charms lp_config branches (group 3 m));
      [reflexivity|].
    cbn [snd]. now apply IH.
  - destruct (re_match ANY_CHARM_MATCH line); cbn [snd]; now apply IH.
Qed.

(** What one turn of the loop writes is read back, from the same state,
    as itself, and leads to the same state. *)
Lemma step_replay st line rest :
  tracking st ->
  (forall ind,
     indent st = Some ind -> startswith line ind = true ->
     is_block_channel ind line = true ->
     close_block ind (current_charm st) = [] ->
     no_block_channel_ahead charms lp_config branches ind rest = true) ->
  run st (fst (step st line) ++ rest)
  = fst (step st line) ++ run (snd (step st line)) rest.
Proof.
  intros H Hrest.
  destruct (indent st) as [ind|] eqn:Hi.
  - destruct (startswith line ind) eqn:Hsw.
    + destruct (is_block_channel ind line) eqn:Hbc.
      * assert (Hs : step st line = (close_block ind (current_charm st), idle))
          by (unfold_step; now rewrite Hi, Hsw, Hbc).
        rewrite Hs. cbn [fst snd].
        destruct (close_block_cases st ind H Hi) as [Hc|(ch & Hc & Hrec & _)];
          rewrite Hc; cbn [app].
        -- apply (run_open_as_idle st ind rest Hi Hc).
           now apply Hrest.
        -- rewrite run_cons.
           rewrite (step_own_channel_line charms lp_config channel branches
                      ignore_tracks st ind ch Hi Hc Hrec).
           reflexivity.
      * assert (Hs : step st line = ([line], snd (detect_reference st line))).
        { unfold_step. rewrite Hi, Hsw, Hbc.
          pose proof (detect_reference_keeps_line charms lp_config branches
                        st line) as Hk.
          destruct (detect_reference st line). cbn in *. now subst. }
        rewrite Hs. cbn [fst snd app]. now rewrite run_cons, Hs.
    + assert (Hs0 : step idle line = ([line], snd (detect_reference idle line))).
      { rewrite (step_no_block _ _ _ _ _ _ idle line eq_refl).
        now rewrite (detect_reference_keeps_line charms lp_config branches
                       idle line). }
      assert (Hs : step st line = (close_block ind (current_charm st) ++ [line],
                                   snd (detect_reference idle line))).
      { rewrite (step_block_end _ _ _ _ _ _ st ind line Hi Hsw).
        now rewrite Hs0. }
      destruct (close_block_cases st ind H Hi) as [Hc|(ch & Hc & Hrec & _)].
      -- rewrite Hc in Hs. cbn [app] in Hs. rewrite Hs. cbn [fst snd app].
         now rewrite run_cons, Hs.
      -- rewrite Hs, Hc. cbn [fst snd app]. rewrite run_cons.
         rewrite (step_own_channel_line charms lp_config channel branches
                    ignore_tracks st ind ch Hi Hc Hrec).
         cbn [fst snd app]. now rewrite run_cons, Hs0.
  - assert (Hs : step st line = ([line], snd (detect_reference st line))).
    { rewrite (step_no_block _ _ _ _ _ _ st line Hi).
      now rewrite (detect_reference_keeps_line charms lp_config branches
                     st line). }
    rewrite Hs. cbn [fst snd app]. now rewrite run_cons, Hs.
Qed.

Lemma run_twice st l :
  tracking st ->
  unwritten_channel_clear charms lp_config channel branches false
    ignore_tracks st l = true ->
  run st (run st l) = run st l.
Proof.
  revert st; induction l as [|line l IH]; intros st H Hdoc.
  - rewrite run_nil. unfold_finish.
    destruct (indent st) as [ind|] eqn:Hi;
      [|rewrite run_nil; unfold_finish; now rewrite Hi].
    destruct (close_block_cases st ind H Hi) as [Hc|(ch & Hc & Hrec & _)];
      rewrite Hc.
    + rewrite run_nil. unfold_finish. now rewrite Hi, Hc.
    + rewrite run_cons.
      rewrite (step_own_channel_line charms lp_config channel branches
                 ignore_tracks st ind ch Hi Hc Hrec).
      reflexivity.
  - cbn [unwritten_channel_clear] in Hdoc.
    apply andb_prop in Hdoc as [Hnow Hrest].
    rewrite run_cons, step_replay; [|exact H|].
    + f_equal. apply IH; [|exact Hrest].
      now apply tracking_step.
    + intros ind Hi Hsw Hbc Hc. rewrite Hi, Hsw, Hbc, Hc in Hnow.
      cbn [andb] in Hnow.
      assert (Hs : snd (step st line) = idle)
        by (unfold_step; now rewrite Hi, Hsw, Hbc).
      rewrite Hs. now apply no_block_channel_ahead_run.
Qed.

(** The lines written are lines with one line feed, at their end, and no
    CR, when the lines read are. *)
Lemma close_block_plain st ind :
  tracking st -> indent st = Some ind -> all is_plain ind = true ->
  Forall plain_line (close_block ind (current_charm st)).
Proof.
  intros H Hi Hp.
  destruct (close_block_cases st ind H Hi) as [->|(ch & -> & _ & Htok)];
    [constructor|].
  repeat constructor. exists (ind +:+ "channel: " +:+ ch). split.
  - unfold channel_line. now rewrite !append_assoc.
  - unfold is_channel_token in Htok. apply andb_prop in Htok as [_ Hns].
    rewrite !all_app, Hp.
    now rewrite (all_impl is_nonspace is_plain ch nonspace_plain Hns).
Qed.

Lemma detect_reference_plain st line :
  plain_line line -> plain_indent st ->
  plain_indent (snd (detect_reference st line)).
Proof.
  intros (body & -> & Hb) H. unfold_detect.
  destruct (re_match CHARM_MATCH (body +:+ nl)) as [m|] eqn:Hm.
  - destruct (is_valid_charm _ _ _ (group 3 m)); [|exact H].
    apply charm_match_shape in Hm as [_ [tl E]].
    exact (indent_of_line is_plain _ _ _ (eq_sym E) Hb).
  - now destruct (re_match ANY_CHARM_MATCH (body +:+ nl)).
Qed.

Lemma step_plain st line :
  plain_line line -> tracking st -> plain_indent st ->
  Forall plain_line (fst (step st line)) /\ plain_indent (snd (step st line)).
Proof.
  intros Hl Ht H.
  pose proof (detect_reference_keeps_line charms lp_config branches st line) as Hk.
  pose proof (detect_reference_plain st line Hl H) as Hd.
  pose proof (detect_reference_keeps_line charms lp_config branches idle line) as Hk'.
  pose proof (detect_reference_plain idle line Hl I) as Hd'.
  pose proof (close_block_plain st) as Hcl.
  unfold_step. unfold plain_indent in H.
  destruct (indent st) as [ind|].
  - specialize (Hcl ind Ht eq_refl H).
    destruct (startswith line ind).
    + destruct (is_block_channel ind line).
      * split; [exact Hcl | exact I].
      * destruct (detect_reference st line). cbn in *. subst.
        split; [now repeat constructor | assumption].
    + destruct (detect_reference idle line). cbn in *. subst.
      split; [|assumption]. apply Forall_app. split;
        [exact Hcl | now repeat constructor].
  - destruct (detect_reference st line). cbn in *. subst.
    split; [now repeat constructor | assumption].
Qed.

Lemma run_plain st lines :
  Forall plain_line lines -> tracking st -> plain_indent st ->
  Forall plain_line (run st lines).
Proof.
  intros Hl. revert st.
  induction Hl as [|line lines Hline _ IH]; intros st Ht H.
  - rewrite run_nil. unfold_finish. unfold plain_indent in H.
    destruct (indent st) as [ind|] eqn:Hi; [|constructor].
    now apply close_block_plain.
  - rewrite run_cons. destruct (step_plain st line Hline Ht H) as [H1 H2].
    apply Forall_app. split; [assumption|]. apply IH; [|assumption].
    now apply tracking_step.
Qed.


End RewriteTwice.



(** With the prefix to be ensured the second pass can differ too: the first
    pass turns a reference with a foreign [cs:] prefix into one that the
    second pass takes for a reference to an eligible charm. *)
Example rewrite_twice_with_prefix :
  let rewrite_ :=
    modify_channel ["nova-compute"] ∅ (Some "candidate") [] true [] in
  let file_lines := [ln "  charm: cs:~someone/nova-compute"] in
  rewrite_ file_lines = [ln "  charm: ch:nova-compute"] /\
  rewrite_ (rewrite_ file_lines) =
    [ln "  charm: ch:nova-compute"; ln "  channel: candidate"].
Proof. vm_compute. split; reflexivity. Qed.

(** A last line without line end makes the second pass differ as well:
    the channel line of the first pass is written behind the text of
    that line, where the second pass does not find it. *)
Example rewrite_twice_unterminated :
  let rewrite_ := rewrite_file ["nova-compute"] ∅ (Some "candidate") [] false [] in
  let text := ln "charm: ch:nova-compute" +:+ "  num_units: 1" in
  rewrite_ text
  = ln "charm: ch:nova-compute" +:+ ln "  num_units: 1channel: candidate" /\
  rewrite_ (rewrite_ text)
  = ln "charm: ch:nova-compute" +:+ ln "  num_units: 1channel: candidate"
    +:+ ln "channel: candidate".
Proof. vm_compute. split; reflexivity. Qed.

(** A channel that does not read back as one is written again by every
    pass: here the empty channel. *)
Example rewrite_twice_empty_channel :
  let rewrite_ := modify_channel ["nova-compute"] ∅ (Some EmptyString) [] false [] in
  let file_lines := [ln "charm: ch:nova-compute"] in
  rewrite_ file_lines = [ln "charm: ch:nova-compute"; ln "channel: "] /\
  rewrite_ (rewrite_ file_lines)
  = [ln "charm: ch:nova-compute"; ln "channel: "; ln "channel: "].
Proof. vm_compute. split; reflexivity. Qed.

(** ** Two places where the loop does not do what is written about it *)

(** C1: under branches, a charm of the config whose branches are not
    among the requested ones resolves to nothing, and the channel line of
    its block is dropped all the same: the block does not keep the
    channel it had. *)
Theorem C1_unresolved_channel_line_dropped :
  let lp_config : LpConfig :=
    {[ "nova-compute" := {[ "master" := ["latest/edge"] ]} ]} in
  let branches := ["stable/queens"] in
  let file_lines :=
    [ln "  charm: ch:nova-compute"; ln "  channel: 22.03/stable";
     ln "  num_units: 1"] in
  is_valid_charm [] lp_config branches "nova-compute" = true /\
  _get_channel lp_config None branches [] (Some "nova-compute") = None /\
  is_block_channel "  " (ln "  channel: 22.03/stable") = true /\
  modify_channel [] lp_config None branches false [] file_lines
  = [ln "  charm: ch:nova-compute"; ln "  num_units: 1"].
Proof. vm_compute. repeat split. Qed.

(** C4: with the prefix to be ensured, a reference with the prefix of
    the charmers that names a charm that is not eligible keeps its [cs:]
    prefix, although the looser pattern matches it; the same name under
    a foreign [cs:] prefix is rewritten. *)
Theorem C4_ineligible_strict_reference_keeps_prefix :
  let charms := ["nova-compute"] in
  let strict := ln "  charm: cs:~openstack-charmers/foo-charm" in
  let foreign := ln "  charm: cs:some-other-org/foo-charm" in
  re_match CHARM_MATCH strict
    = Some [(1, "  "); (2, "cs:~openstack-charmers/"); (3, "foo-charm")] /\
  is_valid_charm charms ∅ [] "foo-charm" = false /\
  re_match ANY_CHARM_MATCH strict
    = Some [(1, "  "); (2, "cs:~openstack-charmers/"); (3, "foo-charm")] /\
  modify_channel charms ∅ (Some "candidate") [] true [] [strict] = [strict] /\
  re_match CHARM_MATCH foreign = None /\
  modify_channel charms ∅ (Some "candidate") [] true [] [foreign]
  = [ln "  charm: ch:foo-charm"].
Proof. vm_compute. repeat split. Qed.

(** C9, an instance: two references at the same indent, the second read
    while the block of the first is open. *)
Lemma C9_sibling_reference_overwrites_block_witness :
  let charms := ["keystone"; "nova-compute"] in
  let st := State (Some "  ") (Some "keystone") in
  let line := ln "  charm: ch:nova-compute" in
  step charms ∅ (Some "candidate") [] false [] st line
    = ([line], State (Some "  ") (Some "nova-compute")) /\
  run charms ∅ (Some "candidate") [] false [] st [line]
    = [line; ln "  channel: candidate"].
Proof.
  intros charms st line.
  destruct (C9_sibling_reference_overwrites_block charms ∅ (Some "candidate")
              [] false [] st line "  "
              [(1, "  "); (2, "ch:"); (3, "nova-compute")] [])
    as [Hstep Hrun].
  - reflexivity.
  - vm_compute. reflexivity.
  - reflexivity.
  - vm_compute. reflexivity.
  - split; [exact Hstep|]. rewrite Hrun. vm_compute. reflexivity.
Defined.

(** ** The charm list *)

Section CharmsList.

Lemma get_charms_list_eq (charms_files : list (list string)) :
  get_charms_list charms_files =
  filter (fun line => keep_name line = true)
         (map strip (filter (fun line => truthy line = true)
                            (concat charms_files))).
Proof.
  unfold get_charms_list. f_equal.
  induction charms_files as [|f fs IH]; [reflexivity|].
  cbn [flat_map concat]. rewrite IH.
  now rewrite filter_app, map_app.
Qed.

(** Dropping the empty lines before stripping changes nothing: an empty
    line strips to the empty string, which is not kept. *)
Lemma get_charms_list_filter (charms_files : list (list string)) :
  get_charms_list charms_files =
  filter (fun line => keep_name line = true)
         (map strip (concat charms_files)).
Proof.
  rewrite get_charms_list_eq.
  induction (concat charms_files) as [|line l IH]; [reflexivity|].
  rewrite filter_cons. destruct (decide (truthy line = true)) as [Ht|Ht].
  - cbn [map]. rewrite !filter_cons, IH. reflexivity.
  - cbn [map]. rewrite filter_cons_False; [exact IH|].
    destruct line; [|now elim Ht]. discriminate.
Qed.

(** C7, as the code has it: the loader returns the lines of the files, in
    file order and line order, each stripped of surrounding white space,
    leaving out those that are then empty or begin with a hash sign, and
    nothing else.  So a name is in the result exactly if it is such a
    name and some line of some file strips to it, and it is there once
    for every such line: nothing is deduplicated. *)
Theorem C7_names_kept_with_repeats
    (charms_files : list (list string)) (name : string) :
  get_charms_list charms_files
  = filter (fun line => keep_name line = true)
           (map strip (concat charms_files)) /\
  (In name (get_charms_list charms_files) <->
   keep_name name = true /\
   exists f line, In f charms_files /\ In line f /\ strip line = name) /\
  count_occ string_dec (get_charms_list charms_files) name =
  if keep_name name
  then count_occ string_dec (map strip (concat charms_files)) name
  else 0.
Proof.
  rewrite get_charms_list_filter. split; [reflexivity|]. split.
  - rewrite <- !list_elem_of_In, list_elem_of_filter, list_elem_of_fmap.
    split.
    + intros [Hk (line & -> & Hl)]. split; [assumption|].
      apply list_elem_of_In, in_concat in Hl as (f & Hf & Hl).
      now exists f, line.
    + intros (Hk & f & line & Hf & Hl & E). split; [assumption|].
      exists line. split; [now symmetry|].
      apply list_elem_of_In, in_concat. now exists f.
  - induction (map strip (concat charms_files)) as [|n l IH].
    + now destruct (keep_name name).
    + rewrite filter_cons.
      destruct (decide (keep_name n = true)) as [Hn|Hn]; cbn [count_occ].
      * destruct (string_dec n name) as [->|Hne].
        -- rewrite Hn in *. now rewrite IH.
        -- rewrite IH. reflexivity.
      * rewrite IH. destruct (string_dec n name) as [->|Hne]; [|reflexivity].
        apply not_true_is_false in Hn. now rewrite Hn.
Qed.

End CharmsList.

(** C7, an instance: the name is in both files and twice in the result. *)
Lemma C7_names_kept_with_repeats_witness :
  let charms_files :=
    [[ln "# openstack"; ln "nova-compute"; ln "keystone"];
     [ln "nova-compute"; nl]] in
  count_occ string_dec (get_charms_list charms_files) "nova-compute" = 2.
Proof.
  intros charms_files.
  destruct (C7_names_kept_with_repeats charms_files "nova-compute")
    as (_ & _ & ->).
  vm_compute. reflexivity.
Defined.

(** C7 as the spec words it fails: a name that is in two files is twice in
    the result. *)
Lemma C7_counterexample :
  get_charms_list [[ln "nova-compute"]; [ln "nova-compute"]]
    = ["nova-compute"; "nova-compute"] /\
  ~ NoDup (get_charms_list [[ln "nova-compute"]; [ln "nova-compute"]]).
Proof.
  split; [vm_compute; reflexivity|].
  intros H. vm_compute in H. apply NoDup_cons_1_1 in H.
  apply H. now left.
Qed.

(** ** The config parser *)

Section ParserFacts.

(** Over mappings the dictionary comprehension returns or raises a
    [KeyError]. *)
Lemma channels_of_mappings its acc :
  forallb (fun kv => is_mapping (snd kv)) its = true ->
  (exists r, channels_of its acc = Ok r) \/ channels_of its acc = Raise KeyError.
Proof.
  revert acc; induction its as [|[k v] its IH]; intros acc H.
  - left. now eexists.
  - simpl in H. apply andb_prop in H as [Hv Hits].
    destruct v as [| |es]; try discriminate Hv.
    cbn [channels_of getitem].
    destruct (entry (SStr "channels") es); cbn [obind]; [apply IH, Hits|].
    now right.
Qed.

(** With a [branches] section of the expected shape, the [try] around the
    comprehension always returns. *)
Lemma branches_of_shape entries d :
  branches_shape entries = true ->
  exists r, except_KeyError (branches_of (YMap entries)) (Ok d) = Ok r.
Proof.
  unfold branches_shape, branches_of. cbn [getitem].
  destruct (entry (SStr "branches") entries) as [b|]; cbn [obind].
  - destruct b as [| |bs]; try discriminate. intros H. cbn [items obind].
    destruct (channels_of_mappings bs ∅ H) as [[r ->]| ->]; now eexists.
  - intros _. now eexists.
Qed.

Lemma load_defaults_shape entries :
  defaults_shape entries = true ->
  exists d, load_defaults (YMap entries) = Ok d.
Proof.
  unfold defaults_shape, load_defaults. cbn [getitem].
  destruct (entry (SStr "defaults") entries) as [d|]; cbn [obind].
  - destruct d as [| |ds]; try discriminate. apply branches_of_shape.
  - intros _. now eexists.
Qed.

Lemma load_defaults_same es1 es2 :
  entry (SStr "defaults") es1 = entry (SStr "defaults") es2 ->
  load_defaults (YMap es1) = load_defaults (YMap es2).
Proof. intros H. unfold load_defaults. cbn [getitem]. now rewrite H. Qed.

(** A project of the expected shape is added. *)
Lemma add_project_shape d project lp :
  project_shape project = true ->
  exists key branches,
    add_project d project lp = Ok (<[key := branches]> lp).
Proof.
  destruct project as [| |p]; try discriminate. cbn [project_shape].
  intros H. apply andb_prop in H as [Hb Hc].
  unfold add_project.
  destruct (branches_of_shape p d Hb) as [r ->]. cbn [obind getitem].
  destruct (entry (SStr "charmhub") p) as [[v| |]|]; try discriminate Hc.
  cbn [obind hashable]. now eexists _, _.
Qed.

(** A project without [charmhub] raises the [KeyError] that ends the
    loop. *)
Lemma add_project_no_charmhub d p lp :
  branches_shape p = true -> entry (SStr "charmhub") p = None ->
  add_project d (YMap p) lp = Raise KeyError.
Proof.
  intros Hb Hc. unfold add_project.
  destruct (branches_of_shape p d Hb) as [r ->]. cbn [obind getitem].
  now rewrite Hc.
Qed.

(** The loop over well-shaped projects runs to its end; from a
    dictionary that is not empty it leaves one that is not empty. *)
Lemma add_projects_shape d projects lp :
  forallb project_shape projects = true ->
  exists lp', add_projects d projects lp = (lp', Ok tt) /\
              (lp <> ∅ \/ projects <> [] -> lp' <> ∅).
Proof.
  revert lp; induction projects as [|project projects IH]; intros lp H.
  - exists lp. split; [reflexivity|]. now intros [?|?].
  - simpl in H. apply andb_prop in H as [Hp Hps].
    destruct (add_project_shape d project lp Hp) as (key & b & E).
    cbn [add_projects]. rewrite E.
    destruct (IH (<[key := b]> lp) Hps) as (lp' & E' & Hne).
    exists lp'. split; [exact E'|]. intros _. apply Hne. left.
    apply insert_non_empty.
Qed.

(** The loop stops at the first project that raises, with the dictionary
    as the projects before it left it. *)
Lemma add_projects_stop d pre bad post lp lp' :
  add_projects d pre lp = (lp', Ok tt) ->
  add_project d bad lp' = Raise KeyError ->
  add_projects d (pre ++ bad :: post) lp = (lp', Raise KeyError).
Proof.
  revert lp; induction pre as [|project pre IH]; intros lp Hpre Hbad.
  - cbn in Hpre. inversion Hpre; subst. cbn [app add_projects].
    now rewrite Hbad.
  - cbn [app add_projects] in *.
    destruct (add_project d project lp) as [lp1|e]; [|discriminate Hpre].
    now apply IH.
Qed.



End ParserFacts.





(** Where the shape matters: only a [KeyError] is caught, so a document
    whose [defaults] is not a mapping, and a project whose [branches] is
    not one, raise out of the parser. *)
Example defaults_not_a_mapping :
  parse_lp_builder_config_file (YMap [(SStr "defaults", YScal SNull)])
  = Raise TypeError.
Proof. vm_compute. reflexivity. Qed.

Example branches_not_a_mapping :
  parse_lp_builder_config_file
    (ymap [("projects", YSeq [ymap [("branches", YScal SNull)]])])
  = Raise AttributeError.
Proof. vm_compute. reflexivity. Qed.

(** A project without [charmhub] at the head of the list leaves the
    result empty. *)
Example first_project_without_charmhub :
  parse_lp_builder_config_file
    (ymap [("projects",
            YSeq [ymap [("name", ystr "charm-keystone")];
                  ymap [("charmhub", ystr "glance")]])])
  = Ok (∅, true).
Proof. vm_compute. reflexivity. Qed.

(** * Further properties of the code *)

(** ** The rewrite loop, block by block *)

Ltac unfold_run := unfold run.
Tactic Notation "unfold_block_line" "in" hyp(H) := unfold block_line in H.

Section Blocks.

Variable charms : list string.
Variable lp_config : LpConfig.
Variable channel : option string.
Variable branches : list string.
Variable ensure_charmhub_prefix : bool.
Variable ignore_tracks : list string.

Local Abbreviation step :=
  (step charms lp_config channel branches ensure_charmhub_prefix ignore_tracks).
Local Abbreviation steps :=
  (steps charms lp_config channel branches ensure_charmhub_prefix ignore_tracks).
Local Abbreviation run :=
  (run charms lp_config channel branches ensure_charmhub_prefix ignore_tracks).
Local Abbreviation finish := (finish lp_config channel branches ignore_tracks).
Local Abbreviation close_block :=
  (close_block lp_config channel branches ignore_tracks).
Local Abbreviation detect_reference :=
  (detect_reference charms lp_config branches ensure_charmhub_prefix).
Local Abbreviation is_valid_charm := (is_valid_charm charms lp_config branches).
Local Abbreviation inert :=
  (inert charms lp_config branches ensure_charmhub_prefix).
Local Abbreviation block_line :=
  (block_line charms lp_config branches ensure_charmhub_prefix).

(** A file in which every line is inert is written back as it is, in
    every mode. *)
Theorem modify_channel_inert_file (file_lines : list string) :
  forallb inert file_lines = true ->
  modify_channel charms lp_config channel branches ensure_charmhub_prefix
    ignore_tracks file_lines = file_lines.
Proof.
  intros H. unfold modify_channel. unfold_run.
  rewrite (steps_inert _ _ channel _ _ ignore_tracks file_lines H).
  cbn. apply app_nil_r.
Qed.

(** The reference line of an eligible charm, read with no block open:
    it is written, with [ch:] for its prefix if that is to be ensured,
    and its block is open afterwards. *)
Lemma step_open_block st ref m :
  indent st = None ->
  re_match CHARM_MATCH ref = Some m ->
  is_valid_charm (group 3 m) = true ->
  step st ref =
  ([if ensure_charmhub_prefix && negb (String.eqb (group 2 m) "ch:")
    then replace ref (group 2 m) "ch:" else ref],
   State (Some (group 1 m)) (Some (group 3 m))).
Proof.
  intros Hi Hm Hv.
  rewrite (step_no_block _ _ _ _ _ _ st ref Hi).
  unfold_detect. now rewrite Hm, Hv.
Qed.

(** The lines of a block that are only copied leave the block open. *)
Lemma steps_block_lines st ind body :
  indent st = Some ind ->
  forallb (block_line ind) body = true ->
  steps st body = (body, st).
Proof.
  intros Hi. induction body as [|line body IH]; intros H; [reflexivity|].
  cbn [forallb] in H. apply andb_prop in H as [Hl Hb].
  unfold_block_line in Hl.
  apply andb_prop in Hl as [Hl Hin]. apply andb_prop in Hl as [Hsw Hbc].
  apply negb_true_iff in Hbc.
  assert (Hs : step st line = ([line], st)).
  { unfold_step. rewrite Hi, Hsw, Hbc.
    now rewrite (detect_reference_inert _ _ _ _ st line Hin). }
  rewrite steps_cons, Hs. cbn [fst snd]. now rewrite (IH Hb).
Qed.

(** A block that ends, at a line that does not start with its indent or
    at the end of the file: the block is closed first. *)
Lemma run_block_end st ind l :
  indent st = Some ind ->
  match l with [] => True | next :: _ => startswith next ind = false end ->
  run st l = close_block ind (current_charm st) ++ run idle l.
Proof.
  intros Hi H. destruct l as [|next l].
  - rewrite !run_nil. unfold_finish. rewrite Hi. cbn [indent].
    now rewrite app_nil_r.
  - rewrite !run_cons.
    rewrite (step_block_end _ _ _ _ _ _ st ind next Hi H). cbn [fst snd].
    now rewrite app_assoc.
Qed.

(** What closing a block writes when the charm resolves to a channel:
    the one channel line at the indent of the block. *)
Lemma close_block_resolved ind c ch :
  _get_channel lp_config channel branches ignore_tracks (Some c) = Some ch ->
  close_block ind (Some c) = [channel_line ind ch].
Proof.
  intros H. unfold_close. rewrite H.
  unfold wants_channel. unfold _get_channel in H.
  destruct channel, branches; try reflexivity. discriminate.
Qed.

(** A block without a channel line of its own gets one where it ends:
    after the reference line of an eligible charm that resolves to the
    channel [ch], and the lines of its block that are only copied, the
    block ends (the next line does not start with the indent, or the file
    ends); there the line [channel: ch] is written at exactly the indent
    of the reference line, and the rest of the file is treated with no
    block open. *)
Theorem block_channel_inserted
    (st : state) (ref ch : string) (m : caps) (body post : list string) :
  indent st = None ->
  re_match CHARM_MATCH ref = Some m ->
  is_valid_charm (group 3 m) = true ->
  _get_channel lp_config channel branches ignore_tracks (Some (group 3 m))
  = Some ch ->
  forallb (block_line (group 1 m)) body = true ->
  match post with
  | [] => True
  | next :: _ => startswith next (group 1 m) = false
  end ->
  run st (ref :: body ++ post) =
  (if ensure_charmhub_prefix && negb (String.eqb (group 2 m) "ch:")
   then replace ref (group 2 m) "ch:" else ref)
  :: body ++ [group 1 m +:+ "channel: " +:+ ch +:+ nl] ++ run idle post.
Proof.
  intros Hi Hm Hv Hch Hbody Hpost.
  rewrite run_cons, (step_open_block st ref m Hi Hm Hv). cbn [fst snd app].
  f_equal. rewrite run_app.
  rewrite (steps_block_lines (State (Some (group 1 m)) (Some (group 3 m)))
             (group 1 m) body eq_refl Hbody). cbn [fst snd].
  f_equal.
  rewrite (run_block_end (State (Some (group 1 m)) (Some (group 3 m)))
             (group 1 m) post eq_refl Hpost). cbn [current_charm].
  now rewrite (close_block_resolved (group 1 m) (group 3 m) ch Hch).
Qed.

(** The channel line of a block is replaced where it stands: after the
    reference line of an eligible charm that resolves to the channel
    [ch], and lines that are only copied, a channel line at the indent of
    the reference line is replaced by the line [channel: ch] at that
    indent, whatever it held, and the block is closed. *)
Theorem block_channel_replaced
    (st : state) (ref chan ch : string) (m : caps) (body rest : list string) :
  indent st = None ->
  re_match CHARM_MATCH ref = Some m ->
  is_valid_charm (group 3 m) = true ->
  _get_channel lp_config channel branches ignore_tracks (Some (group 3 m))
  = Some ch ->
  forallb (block_line (group 1 m)) body = true ->
  startswith chan (group 1 m) = true ->
  is_block_channel (group 1 m) chan = true ->
  run st (ref :: body ++ chan :: rest) =
  (if ensure_charmhub_prefix && negb (String.eqb (group 2 m) "ch:")
   then replace ref (group 2 m) "ch:" else ref)
  :: body ++ [group 1 m +:+ "channel: " +:+ ch +:+ nl] ++ run idle rest.
Proof.
  intros Hi Hm Hv Hch Hbody Hsw Hbc.
  rewrite run_cons, (step_open_block st ref m Hi Hm Hv). cbn [fst snd app].
  f_equal. rewrite run_app.
  rewrite (steps_block_lines (State (Some (group 1 m)) (Some (group 3 m)))
             (group 1 m) body eq_refl Hbody). cbn [fst snd].
  f_equal. rewrite run_cons.
  assert (Hs : step (State (Some (group 1 m)) (Some (group 3 m))) chan
               = (close_block (group 1 m) (Some (group 3 m)), idle)).
  { unfold_step. cbn [indent current_charm]. now rewrite Hsw, Hbc. }
  rewrite Hs. cbn [fst snd].
  now rewrite (close_block_resolved (group 1 m) (group 3 m) ch Hch).
Qed.

End Blocks.

(** ** What the loop writes and what it leaves out *)

Tactic Notation "unfold_close" "in" hyp(H) := unfold close_block in H.

Section Written.

Variable charms : list string.
Variable lp_config : LpConfig.
Variable channel : option string.
Variable branches : list string.
Variable ignore_tracks : list string.

(** No prefix is rewritten in this section. *)
Local Abbreviation step :=
  (step charms lp_config channel branches false ignore_tracks).
Local Abbreviation steps :=
  (steps charms lp_config channel branches false ignore_tracks).
Local Abbreviation run :=
  (run charms lp_config channel branches false ignore_tracks).
Local Abbreviation close_block :=
  (close_block lp_config channel branches ignore_tracks).
Local Abbreviation detect_reference :=
  (detect_reference charms lp_config branches false).
Local Abbreviation tracking := (tracking charms lp_config branches).
Local Abbreviation is_valid_charm := (is_valid_charm charms lp_config branches).
Local Abbreviation written_channel_line :=
  (written_channel_line charms lp_config channel branches ignore_tracks).

Lemma block_channel_is_channel_line ind line :
  is_block_channel ind line = true -> is_channel_line line = true.
Proof.
  unfold is_block_channel, is_channel_line.
  now destruct (re_match CHANNEL_MATCH line).
Qed.

(** One turn of the loop either drops the channel line of the open block,
    writing what closes the block, or writes the line, after what closes
    the block if the line ends it. *)
Lemma step_emits st line :
  (is_channel_line line = true /\
   exists ind, indent st = Some ind /\
               fst (step st line) = close_block ind (current_charm st)) \/
  (exists pre, fst (step st line) = pre ++ [line] /\
     (pre = [] \/
      exists ind, indent st = Some ind /\
                  pre = close_block ind (current_charm st))).
Proof.
  unfold_step. destruct (indent st) as [ind|] eqn:Hi.
  - destruct (startswith line ind).
    + destruct (is_block_channel ind line) eqn:Hbc.
      * left. split; [now apply block_channel_is_channel_line in Hbc|].
        now exists ind.
      * right. exists []. split; [|now left].
        pose proof (detect_reference_keeps_line charms lp_config branches st line) as Hk.
        destruct (detect_reference st line). cbn in *. now subst.
    + right. exists (close_block ind (current_charm st)). split.
      * pose proof (detect_reference_keeps_line charms lp_config branches idle line) as Hk.
        destruct (detect_reference idle line). cbn in *. now subst.
      * right. now exists ind.
  - right. exists []. split; [|now left].
    pose proof (detect_reference_keeps_line charms lp_config branches st line) as Hk.
    destruct (detect_reference st line). cbn in *. now subst.
Qed.

Lemma run_keeps_other_lines st (file_lines : list string) :
  filter (fun line => is_channel_line line = false) file_lines
    `sublist_of` run st file_lines.
Proof.
  revert st; induction file_lines as [|line l IH]; intros st.
  - apply sublist_nil_l.
  - rewrite run_cons. change (line :: l) with ([line] ++ l).
    rewrite filter_app. apply sublist_app; [|apply IH].
    destruct (step_emits st line) as [[Hc _]|(pre & -> & _)].
    + rewrite filter_cons_False; [apply sublist_nil_l|]. now rewrite Hc.
    + apply sublist_inserts_l, sublist_filter.
Qed.

(** Without prefix rewriting, in every mode: the lines of the file that
    do not match the channel pattern are all written, in their order.
    Only channel lines are ever left out. *)
Theorem modify_channel_keeps_other_lines (file_lines : list string) :
  filter (fun line => is_channel_line line = false) file_lines
    `sublist_of`
  modify_channel charms lp_config channel branches false ignore_tracks
    file_lines.
Proof. apply run_keeps_other_lines. Qed.

(** What closes a tracked block is nothing or one channel line. *)
Lemma close_block_written st ind line :
  tracking st -> indent st = Some ind ->
  In line (close_block ind (current_charm st)) -> written_channel_line line.
Proof.
  intros H Hi Hin. unfold_tracking in H. rewrite Hi in H.
  destruct H as (Hsp & c & Hc & Hv). rewrite Hc in Hin.
  unfold_close in Hin.
  destruct (wants_channel channel branches); [|destruct Hin].
  destruct (_get_channel lp_config channel branches ignore_tracks (Some c))
    as [ch|] eqn:Hch; [|destruct Hin].
  destruct Hin as [<-|[]]. now exists ind, c, ch.
Qed.

Lemma run_writes st (file_lines : list string) line :
  tracking st -> In line (run st file_lines) ->
  In line file_lines \/ written_channel_line line.
Proof.
  revert st; induction file_lines as [|l0 l IH]; intros st H Hin.
  - right. rewrite run_nil in Hin. unfold finish in Hin.
    destruct (indent st) as [ind|] eqn:Hi; [|destruct Hin].
    now apply (close_block_written st ind).
  - rewrite run_cons in Hin. apply in_app_or in Hin as [Hin|Hin].
    + destruct (step_emits st l0) as [(_ & ind & Hi & E)|(pre & E & Hpre)];
        rewrite E in Hin.
      * right. now apply (close_block_written st ind).
      * apply in_app_or in Hin as [Hin|[<-|[]]]; [|left; now left].
        destruct Hpre as [->|(ind & Hi & ->)]; [destruct Hin|].
        right. now apply (close_block_written st ind).
    + destruct (IH _ (tracking_step charms lp_config channel branches
                        ignore_tracks st l0 H) Hin) as [?|?];
        [left; now right | now right].
Qed.

(** Without prefix rewriting, in every mode: every line written is a line
    of the file or a channel line that the loop made, and such a line
    stands at a white space indent and carries the channel that an
    eligible charm resolves to. *)
Theorem modify_channel_writes (file_lines : list string) (line : string) :
  In line (modify_channel charms lp_config channel branches false
             ignore_tracks file_lines) ->
  In line file_lines \/ written_channel_line line.
Proof. apply run_writes. exact I. Qed.

End Written.

(** ** Removal *)

Section Removal.

Variable charms : list string.
Variable lp_config : LpConfig.
Variable ignore_tracks : list string.

Local Abbreviation run := (run charms lp_config None [] false ignore_tracks).

Lemma run_remove_sublist st (file_lines : list string) :
  run st file_lines `sublist_of` file_lines /\
  filter (fun line => is_channel_line line = false) (run st file_lines)
  = filter (fun line => is_channel_line line = false) file_lines.
Proof.
  revert st; induction file_lines as [|line l IH]; intros st.
  - rewrite run_nil. unfold finish.
    destruct (indent st); now split.
  - rewrite run_cons. change (line :: l) with ([line] ++ l).
    destruct (IH (snd (step charms lp_config None [] false ignore_tracks st line)))
      as [IH1 IH2].
    rewrite !filter_app, IH2.
    destruct (step_emits charms lp_config None [] ignore_tracks st line)
      as [(Hc & ind & _ & ->)|(pre & -> & Hpre)].
    + rewrite close_block_remove. split.
      * now apply sublist_inserts_l.
      * cbn [app]. rewrite filter_cons_False; [reflexivity|]. now rewrite Hc.
    + assert (pre = []) as ->.
      { destruct Hpre as [->|(ind & _ & ->)]; [reflexivity|].
        apply close_block_remove. }
      split; [now apply sublist_app|reflexivity].
Qed.

(** Removal without prefix rewriting only takes lines away, and only
    channel lines: what is written is the file with some lines left out,
    and the lines that do not match the channel pattern are the same
    before and after. *)
Theorem removal_drops_channel_lines_only (file_lines : list string) :
  let out := modify_channel charms lp_config None [] false ignore_tracks
               file_lines in
  out `sublist_of` file_lines /\
  filter (fun line => is_channel_line line = false) out
  = filter (fun line => is_channel_line line = false) file_lines.
Proof. apply run_remove_sublist. Qed.

End Removal.

(** ** More on the patterns *)

Section MorePatternFacts.

(** The parts of a line that the strict reference pattern matches. *)
Lemma charm_match_parts (line : string) (m : caps) :
  re_match CHARM_MATCH line = Some m ->
  all is_space (group 1 m) = true /\
  (group 2 m = "ch:" \/ group 2 m = "cs:~openstack-charmers/" \/
   group 2 m = "cs:~openstack-charmers-next/") /\
  all is_name_char (group 3 m) = true /\ group 3 m <> EmptyString /\
  exists ws q tl,
    all is_space ws = true /\ ws <> EmptyString /\
    (q = EmptyString \/ q = squote \/ q = dquote) /\
    line = group 1 m +:+ "charm:" +:+ ws +:+ q +:+ group 2 m +:+ group 3 m
           +:+ tl.
Proof.
  intros H. apply re_match_Some in H as (t & rest & H).
  unfold CHARM_MATCH, opt_quote in H.
  apply in_exec_cat in H as (g1 & s1 & c1 & t1 & d1 & H1 & H & -> & ->).
  apply in_exec_group in H1 as (c1' & H1 & ->).
  apply in_exec_star in H1 as (-> & Hg1 & ->).
  apply in_exec_cat in H as (l & s2 & c2 & t2 & d2 & H2 & H & -> & ->).
  apply in_exec_lit in H2 as (-> & -> & ->).
  apply in_exec_cat in H as (ws & s3 & c3 & t3 & d3 & H3 & H & -> & ->).
  apply in_exec_plus in H3 as (-> & Hws & Hwsne & ->).
  apply in_exec_cat in H as (q & s4 & c4 & t4 & d4 & H4 & H & -> & ->).
  apply in_exec_cat in H as (g2 & s5 & c5 & t5 & d5 & H5 & H & -> & ->).
  apply in_exec_group in H5 as (c5' & H5 & ->).
  apply in_exec_cat in H as (g3 & s6 & c6 & t6 & d6 & H6 & H & -> & ->).
  apply in_exec_group in H6 as (c6' & H6 & ->).
  apply in_exec_plus in H6 as (-> & Hg3 & Hg3ne & ->).
  assert (Hq : (q = EmptyString \/ q = squote \/ q = dquote)
               /\ s3 = q +:+ s4 /\ c4 = []).
  { apply in_exec_alt in H4 as [H4|H4].
    - apply in_exec_eps in H4 as (-> & -> & ->). auto.
    - apply in_exec_alt in H4 as [H4|H4];
        apply in_exec_lit in H4 as (-> & -> & ->); auto. }
  destruct Hq as (Hq & -> & ->).
  assert (Hp : (g2 = "ch:" \/ g2 = "cs:~openstack-charmers/" \/
                g2 = "cs:~openstack-charmers-next/")
               /\ s4 = g2 +:+ g3 +:+ s6 /\ c5' = []).
  { apply in_exec_alt in H5 as [H5|H5].
    - apply in_exec_lit in H5 as (-> & -> & ->). auto.
    - apply in_exec_cat in H5 as (a & sa & ca & b & cb & Ha & Hb & -> & ->).
      apply in_exec_lit in Ha as (-> & -> & ->).
      apply in_exec_alt in Hb as [Hb|Hb];
        apply in_exec_lit in Hb as (-> & -> & ->); auto. }
  destruct Hp as (Hp & -> & ->).
  cbn. repeat split; try assumption.
  exists ws, q, s6. repeat split; assumption.
Qed.

(** What a reference line is: white space (group 1), [charm:], white
    space, an optional quote, one of the three prefixes (group 2), and a
    name of letters, digits and hyphens that is not empty (group 3). *)
Theorem charm_match_groups (line : string) (m : caps) :
  re_match CHARM_MATCH line = Some m ->
  all is_space (group 1 m) = true /\
  (group 2 m = "ch:" \/ group 2 m = "cs:~openstack-charmers/" \/
   group 2 m = "cs:~openstack-charmers-next/") /\
  all is_name_char (group 3 m) = true /\ group 3 m <> EmptyString /\
  exists ws q tl,
    all is_space ws = true /\ ws <> EmptyString /\
    (q = EmptyString \/ q = squote \/ q = dquote) /\
    line = group 1 m +:+ "charm:" +:+ ws +:+ q +:+ group 2 m +:+ group 3 m
           +:+ tl.
Proof. apply charm_match_parts. Qed.

Lemma any_charm_match_shape line m :
  re_match ANY_CHARM_MATCH line = Some m ->
  all is_space (group 1 m) = true /\
  exists tl, line = group 1 m +:+ "charm:" +:+ tl.
Proof.
  intros H. apply re_match_Some in H as (t & rest & H).
  exact (indent_literal _ _ _ _ _ _ H).
Qed.

(** No line matches the channel pattern and one of the two reference
    patterns. *)
Lemma channel_not_reference line m :
  re_match CHANNEL_MATCH line = Some m ->
  re_match CHARM_MATCH line = None /\ re_match ANY_CHARM_MATCH line = None.
Proof.
  intros H. split.
  - destruct (re_match CHARM_MATCH line) as [m'|] eqn:E; [|reflexivity].
    apply charm_not_channel in E. congruence.
  - destruct (re_match ANY_CHARM_MATCH line) as [m'|] eqn:E; [exfalso|reflexivity].
    apply channel_match_shape in H as [Hs [tl Hl]].
    apply any_charm_match_shape in E as [Hs' [tl' Hl']].
    rewrite Hl in Hl'. simpl in Hl'.
    apply run_unique with (p := is_space) in Hl' as [_ Hl'];
      [|assumption|assumption|reflexivity|reflexivity].
    discriminate Hl'.
Qed.

End MorePatternFacts.

Section ChannelLines.

Variable charms : list string.
Variable lp_config : LpConfig.
Variable channel : option string.
Variable branches : list string.
Variable ensure_charmhub_prefix : bool.
Variable ignore_tracks : list string.

Local Abbreviation step :=
  (step charms lp_config channel branches ensure_charmhub_prefix ignore_tracks).
Local Abbreviation close_block :=
  (close_block lp_config channel branches ignore_tracks).
Local Abbreviation detect_reference :=
  (detect_reference charms lp_config branches ensure_charmhub_prefix).

Lemma detect_reference_channel_line st line m :
  re_match CHANNEL_MATCH line = Some m ->
  detect_reference st line = (line, st).
Proof.
  intros H. apply channel_not_reference in H as [H1 H2].
  unfold_detect. now rewrite H1, H2.
Qed.

(** A channel line is only touched as the channel line of the open
    block.  With no block open, or at an indent that is not the indent of
    the open block (deeper or not), it is written as it stands; a block
    that it belongs to stays open, a block that it ends is closed before
    it. *)
Theorem channel_line_elsewhere_kept (st : state) (line : string) (m : caps) :
  re_match CHANNEL_MATCH line = Some m ->
  indent st <> Some (group 1 m) ->
  step st line =
  match indent st with
  | Some ind =>
      if startswith line ind then ([line], st)
      else (close_block ind (current_charm st) ++ [line], idle)
  | None => ([line], st)
  end.
Proof.
  intros Hm Hne. unfold_step. destruct (indent st) as [ind|].
  - destruct (startswith line ind).
    + assert (Hbc : is_block_channel ind line = false).
      { unfold is_block_channel. rewrite Hm. apply String.eqb_neq.
        intros E. apply Hne. now rewrite E. }
      rewrite Hbc. now rewrite (detect_reference_channel_line st line m Hm).
    + now rewrite (detect_reference_channel_line idle line m Hm).
  - now rewrite (detect_reference_channel_line st line m Hm).
Qed.

End ChannelLines.

(** ** More on channel resolution *)

Section MoreResolutionFacts.

Variable lp_config : LpConfig.
Variable channel : option string.
Variable ignore_tracks : list string.

Local Abbreviation tracks_of c branch :=
  (lp_config !! c ≫= (fun by_branch : gmap string (list string) =>
                         by_branch !! branch)).

Lemma ignored_spec track ignores :
  ignored track ignores = true <->
  exists ignore, In ignore ignores /\ startswith track ignore = true.
Proof.
  induction ignores as [|i ignores IH]; cbn [ignored].
  - split; [discriminate | now intros (? & [] & _)].
  - destruct (startswith track i) eqn:E.
    + split; [|reflexivity]. intros _. exists i. split; [now left|assumption].
    + rewrite IH. split.
      * intros (x & Hx & Hs). exists x. split; [now right|assumption].
      * intros (x & [->|Hx] & Hs); [congruence|]. now exists x.
Qed.

Lemma scan_branches_sound c bs t :
  scan_branches lp_config ignore_tracks c bs = Some t ->
  exists branch tracks,
    In branch bs /\ tracks_of c branch = Some tracks /\ In t tracks /\
    ignored t ignore_tracks = false.
Proof.
  induction bs as [|b bs IH]; cbn [scan_branches]; [discriminate|].
  destruct (tracks_of c b) as [tracks|] eqn:E.
  - rewrite scan_tracks_find.
    destruct (List.find _ tracks) as [t'|] eqn:F.
    + intros H; inversion H; subst t'.
      apply List.find_some in F as [Hin Hig]. apply negb_true_iff in Hig.
      exists b, tracks. repeat split; try assumption. now left.
    + intros H. destruct (IH H) as (b' & tr & Hb & Htr & Ht & Hi).
      exists b', tr. repeat split; try assumption. now right.
  - intros H. destruct (IH H) as (b' & tr & Hb & Htr & Ht & Hi).
    exists b', tr. repeat split; try assumption. now right.
Qed.

Lemma scan_branches_none c bs :
  scan_branches lp_config ignore_tracks c bs = None <->
  forall branch tracks t,
    In branch bs -> tracks_of c branch = Some tracks -> In t tracks ->
    ignored t ignore_tracks = true.
Proof.
  induction bs as [|b bs IH]; cbn [scan_branches].
  - split; [now intros _ ? ? ? [] | reflexivity].
  - destruct (tracks_of c b) as [tracks|] eqn:E.
    + rewrite scan_tracks_find.
      destruct (List.find _ tracks) as [t'|] eqn:F.
      * split; [discriminate|]. intros H. exfalso.
        apply List.find_some in F as [Hin Hig]. apply negb_true_iff in Hig.
        rewrite (H b tracks t' (or_introl eq_refl) E Hin) in Hig.
        discriminate Hig.
      * rewrite IH. split.
        -- intros H branch tr t [<-|Hb] Htr Ht.
           ++ rewrite E in Htr. inversion Htr; subst tr.
              pose proof (List.find_none _ _ F t Ht) as Hn.
              now apply negb_false_iff in Hn.
           ++ now apply (H branch tr t).
        -- intros H branch tr t Hb. apply H. now right.
    + rewrite IH. split.
      * intros H branch tr t [<-|Hb] Htr Ht; [congruence|].
        now apply (H branch tr t).
      * intros H branch tr t Hb. apply H. now right.
Qed.

(** Under branches, a channel that resolution returns is a candidate of
    one of the requested branches of the charm, and no ignored prefix
    starts it. *)
Theorem get_channel_sound (branches : list string) (c t : string) :
  branches <> [] ->
  _get_channel lp_config channel branches ignore_tracks (Some c) = Some t ->
  exists branch tracks,
    In branch branches /\ tracks_of c branch = Some tracks /\ In t tracks /\
    forall ignore, In ignore ignore_tracks -> startswith t ignore = false.
Proof.
  intros Hne H. cbn [_get_channel] in H.
  destruct branches as [|b bs]; [congruence|].
  apply scan_branches_sound in H as (branch & tracks & Hb & Htr & Ht & Hi).
  exists branch, tracks. repeat split; try assumption.
  intros ignore Hin. destruct (startswith t ignore) eqn:E; [|reflexivity].
  assert (ignored t ignore_tracks = true) by (apply ignored_spec; eauto).
  congruence.
Qed.

(** Under branches, resolution returns nothing exactly if every candidate
    of every requested branch of the charm starts with an ignored prefix;
    a charm or branch that the config does not have counts as having no
    candidates. *)
Theorem get_channel_none (branches : list string) (c : string) :
  branches <> [] ->
  _get_channel lp_config channel branches ignore_tracks (Some c) = None <->
  forall branch tracks t,
    In branch branches -> tracks_of c branch = Some tracks -> In t tracks ->
    exists ignore, In ignore ignore_tracks /\ startswith t ignore = true.
Proof.
  intros Hne. cbn [_get_channel].
  destruct branches as [|b bs]; [congruence|].
  rewrite scan_branches_none. split.
  - intros H branch tracks t Hb Htr Ht. apply ignored_spec. eauto.
  - intros H branch tracks t Hb Htr Ht. apply ignored_spec. eauto.
Qed.

(** The empty string among the ignored prefixes starts every candidate:
    under branches nothing resolves. *)
Theorem empty_ignore_prefix_ignores_all (branches : list string) (c : string) :
  branches <> [] ->
  In EmptyString ignore_tracks ->
  _get_channel lp_config channel branches ignore_tracks (Some c) = None.
Proof.
  intros Hne Hin. cbn [_get_channel].
  destruct branches as [|b bs]; [congruence|].
  apply scan_branches_none. intros branch tracks t _ _ _.
  apply ignored_spec. exists EmptyString. now split.
Qed.

End MoreResolutionFacts.

(** ** More on strings and the charm list *)

Section MoreStringFacts.

(** [startswith] is being a prefix. *)
Lemma startswith_spec (s p : string) :
  startswith s p = true <-> exists r, s = p +:+ r.
Proof.
  unfold startswith. split.
  - destruct (strip_prefix p s) as [r|] eqn:E; [|discriminate].
    intros _. exists r. now apply strip_prefix_Some.
  - intros [r ->]. now rewrite strip_prefix_app.
Qed.

Lemma lstrip_no_space (s : string) :
  match lstrip s with
  | EmptyString => True
  | String c _ => is_space c = false
  end.
Proof.
  induction s as [|c s IH]; cbn [lstrip]; [exact I|].
  destruct (is_space c) eqn:E; [exact IH | exact E].
Qed.

Lemma lstrip_fixed (s : string) :
  match s with
  | EmptyString => True
  | String c _ => is_space c = false
  end -> lstrip s = s.
Proof. destruct s as [|c s]; cbn [lstrip]; [reflexivity|]. now intros ->. Qed.

Lemma rstrip_empty_iff (s : string) :
  rstrip s = EmptyString <-> all is_space s = true.
Proof.
  induction s as [|c s IH]; cbn [rstrip all]; [now split|].
  destruct (rstrip s) as [|d r] eqn:E.
  - destruct (is_space c); cbn [andb].
    + split; [intros _; now apply IH | reflexivity].
    + split; discriminate.
  - split; [discriminate|]. intros H. apply andb_prop in H as [_ H].
    apply IH in H. discriminate H.
Qed.

Lemma rstrip_idempotent (s : string) : rstrip (rstrip s) = rstrip s.
Proof.
  induction s as [|c s IH]; [reflexivity|]. cbn [rstrip].
  destruct (rstrip s) as [|d r] eqn:E.
  - destruct (is_space c) eqn:Hc; [reflexivity|].
    cbn [rstrip]. now rewrite Hc.
  - cbn [rstrip]. cbn [rstrip] in IH.
    destruct (rstrip r) as [|d' r'] eqn:E'.
    + destruct (is_space d) eqn:Hd; [discriminate IH|].
      now inversion IH.
    + now inversion IH.
Qed.

(** The first character of a string is the first character of what
    [rstrip] leaves of it, unless that is empty. *)
Lemma rstrip_head (c : ascii) (s : string) :
  rstrip (String c s) = EmptyString \/
  exists r, rstrip (String c s) = String c r.
Proof.
  cbn [rstrip]. destruct (rstrip s) as [|d r].
  - destruct (is_space c); [now left | right; now eexists].
  - right. now eexists.
Qed.

(** [strip] leaves a string that [strip] does not change: its result
    neither starts nor ends with white space. *)
Theorem strip_idempotent (s : string) : strip (strip s) = strip s.
Proof.
  unfold strip.
  assert (H : lstrip (rstrip (lstrip s)) = rstrip (lstrip s)).
  { apply lstrip_fixed. pose proof (lstrip_no_space s) as Hn.
    destruct (lstrip s) as [|c t]; [exact I|].
    destruct (rstrip_head c t) as [-> | [r ->]]; [exact I | exact Hn]. }
  rewrite H. apply rstrip_idempotent.
Qed.

(** A line of white space only strips to the empty string, and only
    such a line does. *)
Theorem strip_empty_iff (s : string) :
  strip s = EmptyString <-> all is_space s = true.
Proof.
  unfold strip. rewrite rstrip_empty_iff.
  induction s as [|c s IH]; cbn [lstrip all]; [now split|].
  destruct (is_space c) eqn:E; cbn [andb]; [exact IH|].
  cbn [all]. rewrite E. now split.
Qed.

End MoreStringFacts.

Section MoreCharmsList.

(** Every name of the charm list is stripped, not empty and no comment:
    stripping it again changes nothing, and it does not begin with a
    hash sign. *)
Theorem get_charms_list_names (charms_files : list (list string)) (name : string) :
  In name (get_charms_list charms_files) ->
  strip name = name /\ name <> EmptyString /\ startswith name "#" = false.
Proof.
  rewrite get_charms_list_eq.
  rewrite <- list_elem_of_In, list_elem_of_filter, list_elem_of_fmap.
  intros [Hk (line & -> & _)]. unfold keep_name in Hk.
  apply andb_prop in Hk as [Ht Hc]. apply negb_true_iff in Hc.
  split; [apply strip_idempotent|]. split; [|exact Hc].
  intros E. rewrite E in Ht. discriminate Ht.
Qed.

(** The charm list of several files is the charm lists of the files one
    after the other; files and lines keep their order. *)
Theorem get_charms_list_app (files1 files2 : list (list string)) :
  get_charms_list (files1 ++ files2)
  = get_charms_list files1 ++ get_charms_list files2.
Proof.
  rewrite !get_charms_list_eq, concat_app, filter_app, map_app, filter_app.
  reflexivity.
Qed.

(** A line that is empty, white space only, or a comment after stripping
    adds no name. *)
Theorem get_charms_list_skips (file : list string) (line : string) (rest : list (list string)) :
  all is_space line = true \/ startswith (strip line) "#" = true ->
  get_charms_list ((line :: file) :: rest) = get_charms_list (file :: rest).
Proof.
  intros H. rewrite !get_charms_list_eq. cbn [concat].
  rewrite <- !app_comm_cons. rewrite filter_cons.
  destruct (decide (truthy line = true)) as [Ht|Ht]; [|reflexivity].
  cbn [map]. rewrite filter_cons_False; [reflexivity|].
  unfold keep_name. destruct H as [H|H].
  - apply strip_empty_iff in H. now rewrite H.
  - rewrite H. cbn. now rewrite andb_false_r.
Qed.

End MoreCharmsList.

(** ** More on the config parser *)

Section MoreParserFacts.

(** A project without a [branches] section gets the default branches. *)
Theorem project_without_branches_gets_defaults
    (d : gmap scalar yaml) (p : list (scalar * yaml)) (key : scalar)
    (lp_config : RawLpConfig) :
  entry (SStr "branches") p = None ->
  entry (SStr "charmhub") p = Some (YScal key) ->
  add_project d (YMap p) lp_config = Ok (<[key := d]> lp_config).
Proof.
  intros Hb Hc. unfold add_project, branches_of. cbn [getitem].
  rewrite Hb. cbn [obind except_KeyError getitem]. rewrite Hc. reflexivity.
Qed.

Lemma channels_of_missing its acc :
  forallb (fun kv => is_mapping (snd kv)) its = true ->
  (exists k es, In (k, YMap es) its /\ entry (SStr "channels") es = None) ->
  channels_of its acc = Raise KeyError.
Proof.
  revert acc; induction its as [|[k v] its IH]; intros acc H (k0 & es & Hin & He).
  - destruct Hin.
  - cbn [forallb] in H. apply andb_prop in H as [Hv Hits].
    destruct v as [| |es']; try discriminate Hv.
    cbn [channels_of getitem].
    destruct (entry (SStr "channels") es') eqn:E; cbn [obind]; [|reflexivity].
    apply IH; [assumption|].
    destruct Hin as [Hin|Hin]; [inversion Hin; subst; congruence|].
    now exists k0, es.
Qed.


Lemma channels_of_all its acc :
  NoDup (map fst its) ->
  Forall (fun kv => exists es c, snd kv = YMap es
                                 /\ entry (SStr "channels") es = Some c) its ->
  exists own, channels_of its acc = Ok own /\
    forall k, own !! k =
              match entry k its with
              | Some (YMap es) => entry (SStr "channels") es
              | _ => acc !! k
              end.
Proof.
  revert acc; induction its as [|[k v] its IH]; intros acc Hnd Hall.
  - exists acc. split; [reflexivity|]. reflexivity.
  - apply NoDup_cons in Hnd as [Hk Hnd].
    apply Forall_cons in Hall as [(es & c & Hv & Hc) Hall].
    cbn [snd] in Hv. subst v. cbn [channels_of getitem]. rewrite Hc.
    cbn [obind].
    destruct (IH (<[k := c]> acc) Hnd Hall) as (own & E & Hown).
    exists own. split; [exact E|]. intros k'. rewrite Hown. cbn [entry].
    destruct (decide (k = k')) as [->|Hne].
    + assert (Hnone : entry k' its = None).
      { clear -Hk. induction its as [|[a b] its IH]; [reflexivity|].
        cbn [entry]. cbn [map fst] in Hk.
        apply not_elem_of_cons in Hk as [Hne Hk].
        destruct (decide (a = k')); [congruence | now apply IH]. }
      rewrite Hnone, Hc. apply lookup_insert_eq.
    + destruct (entry k' its) as [[| |es']|]; try reflexivity;
        now apply lookup_insert_ne.
Qed.

(** A project whose branches all have [channels] gets its own branches,
    each with its own channels, and none of the defaults. *)
Theorem project_with_branches_gets_own
    (d : gmap scalar yaml) (p bs : list (scalar * yaml)) (key : scalar)
    (lp_config : RawLpConfig) :
  entry (SStr "branches") p = Some (YMap bs) ->
  NoDup (map fst bs) ->
  Forall (fun kv => exists es c, snd kv = YMap es
                                 /\ entry (SStr "channels") es = Some c) bs ->
  entry (SStr "charmhub") p = Some (YScal key) ->
  exists own,
    add_project d (YMap p) lp_config = Ok (<[key := own]> lp_config) /\
    forall k, own !! k =
              match entry k bs with
              | Some (YMap es) => entry (SStr "channels") es
              | _ => None
              end.
Proof.
  intros Hb Hnd Hall Hc.
  destruct (channels_of_all bs ∅ Hnd Hall) as (own & E & Hown).
  exists own. split.
  - unfold add_project, branches_of. cbn [getitem]. rewrite Hb.
    cbn [obind items]. rewrite E. cbn [obind except_KeyError getitem].
    rewrite Hc. reflexivity.
  - intros k. rewrite Hown. now destruct (entry k bs) as [[| |]|].
Qed.

(** The key under which a well-shaped project is filed. *)
Lemma add_project_key d p lp :
  project_shape (YMap p) = true ->
  exists key branches,
    entry (SStr "charmhub") p = Some (YScal key) /\
    add_project d (YMap p) lp = Ok (<[key := branches]> lp).
Proof.
  cbn [project_shape]. intros H. apply andb_prop in H as [Hb Hc].
  unfold add_project.
  destruct (branches_of_shape p d Hb) as [r ->]. cbn [obind getitem].
  destruct (entry (SStr "charmhub") p) as [[v| |]|]; try discriminate Hc.
  cbn [obind hashable]. now eexists _, _.
Qed.

Lemma add_projects_keys d projects lp :
  forallb project_shape projects = true ->
  exists lp', add_projects d projects lp = (lp', Ok tt) /\
    forall k, is_Some (lp' !! k) <->
      is_Some (lp !! k) \/
      exists p, In (YMap p) projects /\
                entry (SStr "charmhub") p = Some (YScal k).
Proof.
  revert lp; induction projects as [|project projects IH]; intros lp H.
  - exists lp. split; [reflexivity|]. intros k. split; [now left|].
    now intros [?|(? & [] & _)].
  - cbn [forallb] in H. apply andb_prop in H as [Hp Hps].
    destruct project as [| |p]; try discriminate Hp.
    destruct (add_project_key d p lp Hp) as (key & b & Hkey & E).
    cbn [add_projects]. rewrite E.
    destruct (IH (<[key := b]> lp) Hps) as (lp' & E' & Hdom).
    exists lp'. split; [exact E'|]. intros k. rewrite Hdom.
    rewrite lookup_insert_is_Some. split.
    + intros [[->|[_ ?]]|(p' & Hin & Hc)].
      * right. exists p. split; [now left|assumption].
      * now left.
      * right. exists p'. split; [now right|assumption].
    + intros [Hl|(p' & [Hin|Hin] & Hc)].
      * destruct (decide (key = k)); [left; now left | left; now right].
      * inversion Hin; subst p'. rewrite Hkey in Hc. inversion Hc.
        left. now left.
      * right. now exists p'.
Qed.

(** A document of the expected shape parses without exception and
    without warning, and the charms of the result are exactly the
    [charmhub] names of its projects. *)
Theorem parse_well_shaped (es : list (scalar * yaml)) (projects : list yaml) :
  defaults_shape es = true ->
  entry (SStr "projects") es = Some (YSeq projects) ->
  forallb project_shape projects = true ->
  exists lp_config,
    parse_lp_builder_config_file (YMap es) = Ok (lp_config, false) /\
    forall k, is_Some (lp_config !! k) <->
      exists p, In (YMap p) projects /\
                entry (SStr "charmhub") p = Some (YScal k).
Proof.
  intros Hd Hp Hs. unfold parse_lp_builder_config_file.
  destruct (load_defaults_shape es Hd) as [d ->]. cbn [obind].
  unfold load_projects. cbn [getitem]. rewrite Hp. cbn [obind iterate].
  destruct (add_projects_keys d projects ∅ Hs) as (lp & -> & Hdom).
  exists lp. split; [reflexivity|]. intros k. rewrite Hdom.
  rewrite lookup_empty. split; [|now right].
  intros [[x Hx]|H]; [discriminate Hx | exact H].
Qed.

(** Of two projects with the same [charmhub] name the later one counts:
    after the loop the name is bound to the branches of the last project
    of the list. *)
Theorem last_project_wins
    (d : gmap scalar yaml) (pre : list yaml) (p : list (scalar * yaml))
    (lp_config : RawLpConfig) :
  forallb project_shape (pre ++ [YMap p]) = true ->
  exists key branches lp_config',
    entry (SStr "charmhub") p = Some (YScal key) /\
    add_project d (YMap p) ∅ = Ok {[ key := branches ]} /\
    add_projects d (pre ++ [YMap p]) lp_config = (lp_config', Ok tt) /\
    lp_config' !! key = Some branches.
Proof.
  intros H. rewrite forallb_app in H. apply andb_prop in H as [Hpre Hp].
  cbn [forallb] in Hp. rewrite andb_true_r in Hp.
  destruct (add_projects_shape d pre lp_config Hpre) as (lp1 & E1 & _).
  assert (Hsame : exists key branches,
             entry (SStr "charmhub") p = Some (YScal key) /\
             forall lp, add_project d (YMap p) lp = Ok (<[key := branches]> lp)).
  { cbn [project_shape] in Hp. apply andb_prop in Hp as [Hb Hc].
    destruct (branches_of_shape p d Hb) as [r Hr].
    destruct (entry (SStr "charmhub") p) as [[v| |]|] eqn:Hk;
      try discriminate Hc.
    exists v, r. split; [reflexivity|]. intros lp. unfold add_project.
    rewrite Hr. cbn [obind getitem]. rewrite Hk. reflexivity. }
  destruct Hsame as (key & b & Hkey & Hadd).
  exists key, b, (<[key := b]> lp1). repeat split.
  - exact Hkey.
  - rewrite Hadd. now rewrite insert_empty.
  - clear -E1 Hadd. revert lp_config E1.
    induction pre as [|q pre IH]; intros lp E1.
    + cbn in E1. inversion E1; subst. cbn [app add_projects].
      now rewrite Hadd.
    + cbn [app add_projects] in *.
      destruct (add_project d q lp) as [lp2|e]; [|discriminate E1].
      now apply IH.
  - apply lookup_insert_eq.
Qed.

End MoreParserFacts.

(** ** Merging the config files *)

Section ConfigFiles.

Lemma update_with_files_app (files1 files2 : list yaml) (lp : RawLpConfig) :
  update_with_files (files1 ++ files2) lp =
  obind (update_with_files files1 lp) (update_with_files files2).
Proof.
  revert lp; induction files1 as [|f files1 IH]; intros lp; [reflexivity|].
  cbn [app update_with_files].
  destruct (parse_lp_builder_config_file f) as [parsed|e]; cbn [obind];
    [apply IH | reflexivity].
Qed.

(** The file read last wins, charm by charm: a charm of the last file has
    the branches that this file gives it, whole and not merged with what
    earlier files said; every other charm keeps what it had. *)
Theorem last_config_file_wins
    (files : list yaml) (file : yaml) (lp_config parsed : RawLpConfig)
    (warned : bool) :
  get_lp_builder_config files = Ok lp_config ->
  parse_lp_builder_config_file file = Ok (parsed, warned) ->
  exists lp_config',
    get_lp_builder_config (files ++ [file]) = Ok lp_config' /\
    forall charm,
      lp_config' !! charm =
      match parsed !! charm with
      | Some by_branch => Some by_branch
      | None => lp_config !! charm
      end.
Proof.
  unfold get_lp_builder_config. intros Hf Hp.
  rewrite update_with_files_app, Hf. cbn [obind update_with_files].
  rewrite Hp. cbn [obind fst]. eexists. split; [reflexivity|].
  intros charm. rewrite lookup_union.
  destruct (parsed !! charm), (lp_config !! charm); reflexivity.
Qed.

(** A file without a [projects] key, otherwise of the expected shape,
    changes nothing, wherever it stands among the files. *)
Theorem config_file_without_projects_ignored
    (files1 files2 : list yaml) (es : list (scalar * yaml)) :
  entry (SStr "projects") es = None ->
  defaults_shape es = true ->
  get_lp_builder_config (files1 ++ YMap es :: files2)
  = get_lp_builder_config (files1 ++ files2).
Proof.
  intros Hp Hd. unfold get_lp_builder_config.
  rewrite !update_with_files_app.
  destruct (update_with_files files1 ∅) as [lp|e]; cbn [obind]; [|reflexivity].
  cbn [update_with_files].
  assert (E : parse_lp_builder_config_file (YMap es) = Ok (∅, true)).
  { unfold parse_lp_builder_config_file.
    destruct (load_defaults_shape es Hd) as [d ->]. cbn [obind].
    unfold load_projects. cbn [getitem]. now rewrite Hp. }
  rewrite E. cbn [obind fst]. now rewrite (left_id_L ∅ (∪)).
Qed.

(** An exception out of the parser for one file is the result for all
    files: the files before it do not count, the files after it are not
    read. *)
Theorem config_file_exception_propagates
    (files1 files2 : list yaml) (file : yaml) (lp_config : RawLpConfig)
    (e : exn) :
  get_lp_builder_config files1 = Ok lp_config ->
  parse_lp_builder_config_file file = Raise e ->
  get_lp_builder_config (files1 ++ file :: files2) = Raise e.
Proof.
  unfold get_lp_builder_config. intros Hf Hp.
  rewrite update_with_files_app, Hf. cbn [obind update_with_files].
  now rewrite Hp.
Qed.

End ConfigFiles.

(** ** The text of the bundle file *)

Section FileText.

Variable charms : list string.
Variable lp_config : LpConfig.
Variable channel : option string.
Variable branches : list string.
Variable ensure_charmhub_prefix : bool.
Variable ignore_tracks : list string.

(** A bundle file without a reference to an eligible charm (and, if the
    prefix is to be ensured, without a reference with a [cs:] prefix) is
    written back as it was read, whatever its last line is: every CR LF
    and every CR of the file has become a line feed and nothing else has
    changed.  A file without CR is written back byte for byte. *)
Theorem rewrite_file_inert (text : string) :
  forallb (inert charms lp_config branches ensure_charmhub_prefix)
          (readlines (universal_newlines text)) = true ->
  rewrite_file charms lp_config channel branches ensure_charmhub_prefix
    ignore_tracks text = universal_newlines text /\
  (all not_cr text = true ->
   rewrite_file charms lp_config channel branches ensure_charmhub_prefix
     ignore_tracks text = text).
Proof.
  intros H.
  assert (E : rewrite_file charms lp_config channel branches
                ensure_charmhub_prefix ignore_tracks text
              = universal_newlines text).
  { unfold rewrite_file, modify_channel. unfold_run.
    rewrite (steps_inert _ _ channel _ _ ignore_tracks _ H).
    cbn [finish indent idle]. rewrite app_nil_r. apply writelines_readlines. }
  split; [exact E|]. intros Hcr. rewrite E. now apply universal_newlines_id.
Qed.

(** Without prefix rewriting: the last line of the file, as it is read,
    is the reference line of an eligible charm that resolves to the
    channel [ch], and it has no line end (no LF, CR LF or CR after it).
    The channel line is written right behind the text of the reference
    line, on the same line of the new file.  Before it stands what was
    written for the lines before and, if the reference line ends a block
    that was open, what closes that block. *)
Theorem channel_glued_to_unterminated_reference
    (text ref : string) (pre : list string) (m : caps) (ch : string) :
  readlines (universal_newlines text) = pre ++ [ref] ->
  all is_dot ref = true ->
  re_match CHARM_MATCH ref = Some m ->
  is_valid_charm charms lp_config branches (group 3 m) = true ->
  _get_channel lp_config channel branches ignore_tracks (Some (group 3 m))
  = Some ch ->
  let before :=
    steps charms lp_config channel branches false ignore_tracks idle pre in
  rewrite_file charms lp_config channel branches false ignore_tracks text
  = writelines (fst before)
    +:+ writelines
          match indent (snd before) with
          | Some ind =>
              if startswith ref ind then []
              else close_block lp_config channel branches ignore_tracks
                     ind (current_charm (snd before))
          | None => []
          end
    +:+ ref +:+ group 1 m +:+ "channel: " +:+ ch +:+ nl.
Proof.
  intros Hr _ Hm Hv Hch before. unfold rewrite_file, modify_channel.
  rewrite Hr, run_app, writelines_app. fold before. f_equal.
  rewrite run_cons.
  pose proof (step_open_block charms lp_config channel branches false
                ignore_tracks) as Hopen. cbn [andb] in Hopen.
  assert (Hs : step charms lp_config channel branches false ignore_tracks
                 (snd before) ref
               = (match indent (snd before) with
                  | Some ind =>
                      if startswith ref ind then []
                      else close_block lp_config channel branches
                             ignore_tracks ind (current_charm (snd before))
                  | None => []
                  end ++ [ref],
                  State (Some (group 1 m)) (Some (group 3 m)))).
  { destruct (indent (snd before)) as [ind|] eqn:Hi.
    - destruct (startswith ref ind) eqn:Hsw.
      + unfold_step. rewrite Hi, Hsw, (charm_not_block_channel ind _ _ Hm).
        unfold_detect. now rewrite Hm, Hv.
      + rewrite (step_block_end _ _ _ _ _ _ _ ind ref Hi Hsw).
        now rewrite (Hopen idle ref m eq_refl Hm Hv).
    - now rewrite (Hopen (snd before) ref m Hi Hm Hv). }
  rewrite Hs. cbn [fst snd]. rewrite run_nil. unfold_finish.
  cbn [indent current_charm].
  rewrite (close_block_resolved lp_config channel branches ignore_tracks
             (group 1 m) (group 3 m) ch Hch).
  rewrite <- app_assoc, !writelines_app. cbn [writelines].
  unfold channel_line. now rewrite !append_empty_r.
Qed.

End FileText.

(** ** Reading the new file *)

Section ReadBack.

Variable charms : list string.
Variable lp_config : LpConfig.
Variable channel : option string.
Variable branches : list string.
Variable ignore_tracks : list string.

(** No channel that can be resolved has a line feed in it. *)
Hypothesis channels_one_line :
  forall c ch,
    _get_channel lp_config channel branches ignore_tracks c = Some ch ->
    all is_dot ch = true.

Local Abbreviation step :=
  (step charms lp_config channel branches false ignore_tracks).
Local Abbreviation run :=
  (run charms lp_config channel branches false ignore_tracks).
Local Abbreviation close_block :=
  (close_block lp_config channel branches ignore_tracks).
Local Abbreviation detect_reference :=
  (detect_reference charms lp_config branches false).

Lemma close_block_whole ind cur :
  all is_dot ind = true -> Forall whole_line (close_block ind cur).
Proof.
  intros Hi. unfold_close. destruct (wants_channel channel branches); [|constructor].
  destruct (_get_channel lp_config channel branches ignore_tracks cur)
    as [ch|] eqn:E; [|constructor].
  repeat constructor. exists (ind +:+ "channel: " +:+ ch). split.
  - unfold channel_line. now rewrite !append_assoc.
  - rewrite !all_app, Hi, (channels_one_line cur ch E). reflexivity.
Qed.

Lemma detect_reference_one_line st line :
  whole_line line -> one_line_indent st ->
  one_line_indent (snd (detect_reference st line)).
Proof.
  intros (body & -> & Hb) H. unfold_detect.
  destruct (re_match CHARM_MATCH (body +:+ nl)) as [m|] eqn:Hm.
  - destruct (is_valid_charm _ _ _ (group 3 m)); [|exact H].
    apply charm_match_shape in Hm as [_ [tl E]].
    exact (indent_of_line is_dot _ _ _ (eq_sym E) Hb).
  - now destruct (re_match ANY_CHARM_MATCH (body +:+ nl)).
Qed.

Lemma step_whole st line :
  whole_line line -> one_line_indent st ->
  Forall whole_line (fst (step st line)) /\ one_line_indent (snd (step st line)).
Proof.
  intros Hl H.
  pose proof (detect_reference_keeps_line charms lp_config branches st line) as Hk.
  pose proof (detect_reference_one_line st line Hl H) as Hd.
  pose proof (detect_reference_keeps_line charms lp_config branches idle line) as Hk'.
  pose proof (detect_reference_one_line idle line Hl I) as Hd'.
  unfold_step. unfold one_line_indent in H.
  destruct (indent st) as [ind|].
  - destruct (startswith line ind).
    + destruct (is_block_channel ind line).
      * split; [now apply close_block_whole | exact I].
      * destruct (detect_reference st line). cbn in *. subst.
        split; [now repeat constructor | assumption].
    + destruct (detect_reference idle line). cbn in *. subst.
      split; [|assumption]. apply Forall_app. split;
        [now apply close_block_whole | now repeat constructor].
  - destruct (detect_reference st line). cbn in *. subst.
    split; [now repeat constructor | assumption].
Qed.

Lemma run_whole st lines :
  Forall whole_line lines -> one_line_indent st ->
  Forall whole_line (run st lines).
Proof.
  intros Hl. revert st. induction Hl as [|line lines Hline _ IH]; intros st H.
  - rewrite run_nil. unfold finish. unfold one_line_indent in H.
    destruct (indent st); [now apply close_block_whole | constructor].
  - rewrite run_cons. destruct (step_whole st line Hline H) as [H1 H2].
    apply Forall_app. split; [assumption | now apply IH].
Qed.


End ReadBack.

(** ** What a mode does not look at *)

Section Independence.

Variable channel : option string.
Variable ensure_charmhub_prefix : bool.
Variable ignore_tracks : list string.

(** Under branches the charm list is not consulted: the eligible charms
    are the charms of the config, and two charm lists give the same
    output. *)
Theorem branches_ignore_charm_list
    (charms charms' : list string) (lp_config : LpConfig)
    (branch : string) (branches : list string) (file_lines : list string) :
  modify_channel charms lp_config channel (branch :: branches)
    ensure_charmhub_prefix ignore_tracks file_lines
  = modify_channel charms' lp_config channel (branch :: branches)
      ensure_charmhub_prefix ignore_tracks file_lines.
Proof.
  unfold modify_channel, run.
  assert (H : forall st,
             steps charms lp_config channel (branch :: branches)
               ensure_charmhub_prefix ignore_tracks st file_lines
             = steps charms' lp_config channel (branch :: branches)
                 ensure_charmhub_prefix ignore_tracks st file_lines).
  { induction file_lines as [|line l IH]; intros st; [reflexivity|].
    cbn [steps].
    assert (Hs : step charms lp_config channel (branch :: branches)
                   ensure_charmhub_prefix ignore_tracks st line
                 = step charms' lp_config channel (branch :: branches)
                     ensure_charmhub_prefix ignore_tracks st line)
      by reflexivity.
    rewrite Hs. destruct (step charms' _ _ _ _ _ st line) as [out st'].
    now rewrite IH. }
  now rewrite H.
Qed.

(** Without branches neither the config nor the ignored prefixes are
    consulted: the eligible charms are those of the charm list and the
    channel is the given one. *)
Theorem fixed_channel_ignores_config
    (charms : list string) (lp_config lp_config' : LpConfig)
    (ignore_tracks' : list string) (file_lines : list string) :
  modify_channel charms lp_config channel [] ensure_charmhub_prefix
    ignore_tracks file_lines
  = modify_channel charms lp_config' channel [] ensure_charmhub_prefix
      ignore_tracks' file_lines.
Proof.
  unfold modify_channel, run.
  assert (H : forall st,
             steps charms lp_config channel [] ensure_charmhub_prefix
               ignore_tracks st file_lines
             = steps charms lp_config' channel [] ensure_charmhub_prefix
                 ignore_tracks' st file_lines).
  { induction file_lines as [|line l IH]; intros st; [reflexivity|].
    cbn [steps].
    assert (Hs : step charms lp_config channel [] ensure_charmhub_prefix
                   ignore_tracks st line
                 = step charms lp_config' channel [] ensure_charmhub_prefix
                     ignore_tracks' st line).
    { unfold step, close_block, detect_reference, is_valid_charm.
      destruct (current_charm st); reflexivity. }
    rewrite Hs. destruct (step charms lp_config' _ _ _ _ st line) as [out st'].
    now rewrite IH. }
  rewrite H.
  destruct (steps charms lp_config' channel [] ensure_charmhub_prefix
              ignore_tracks' idle file_lines) as [out st'].
  reflexivity.
Qed.

End Independence.

(** ** Rewriting the prefix *)

Section PrefixRewrite.

Lemma replace_from_skip (old new a r : string) :
  replace_from old new (String.length a) (a +:+ r) = replace_from old new 0 r.
Proof. induction a as [|c a IH]; [reflexivity | exact IH]. Qed.

(** A run of characters none of which is the first character of [old]
    is copied. *)
Lemma replace_from_run (p : ascii -> bool) (o : ascii) (old' new a s : string) :
  all p a = true -> p o = false ->
  replace_from (String o old') new 0 (a +:+ s)
  = a +:+ replace_from (String o old') new 0 s.
Proof.
  intros Ha Ho. induction a as [|c a IH]; [reflexivity|].
  cbn [all] in Ha. apply andb_prop in Ha as [Hc Ha].
  cbn [String.append replace_from]. unfold startswith. cbn [strip_prefix].
  assert (E : Ascii.eqb o c = false).
  { apply Ascii.eqb_neq. intros ->. congruence. }
  rewrite E. now rewrite (IH Ha).
Qed.

(** An occurrence of [old] is replaced, and the search goes on behind
    it. *)
Lemma replace_from_occurrence (o : ascii) (old' new r : string) :
  replace_from (String o old') new 0 (String o old' +:+ r)
  = new +:+ replace_from (String o old') new 0 r.
Proof.
  cbn [String.append replace_from].
  pose proof (startswith_app (String o old') r) as Hs.
  cbn [String.append] in Hs. rewrite Hs. f_equal.
  assert (E : String.length (String o old') - 1 = String.length old')
    by (cbn [String.length]; lia).
  rewrite E. apply replace_from_skip.
Qed.

Lemma replace_from_charm_key (old X : string) :
  old = "cs:~openstack-charmers/" \/ old = "cs:~openstack-charmers-next/" ->
  replace_from old "ch:" 0 ("charm:" +:+ X)
  = "charm:" +:+ replace_from old "ch:" 0 X.
Proof. intros [->| ->]; reflexivity. Qed.

Lemma replace_from_quote (old q X : string) :
  old = "cs:~openstack-charmers/" \/ old = "cs:~openstack-charmers-next/" ->
  q = EmptyString \/ q = squote \/ q = dquote ->
  replace_from old "ch:" 0 (q +:+ X) = q +:+ replace_from old "ch:" 0 X.
Proof. intros [->| ->] [->|[->| ->]]; reflexivity. Qed.

(** The line that is written for a reference whose [cs:] prefix is
    rewritten: indent, key, white space and quote stay, [ch:] stands where
    the prefix stood, and behind it every further occurrence of the
    prefix in the line, say in a comment, is rewritten as well. *)
Theorem reference_prefix_rewritten (line : string) (m : caps) :
  re_match CHARM_MATCH line = Some m ->
  group 2 m <> "ch:" ->
  exists ws q tl,
    all is_space ws = true /\
    (q = EmptyString \/ q = squote \/ q = dquote) /\
    line = group 1 m +:+ "charm:" +:+ ws +:+ q +:+ group 2 m +:+ tl /\
    replace line (group 2 m) "ch:"
    = group 1 m +:+ "charm:" +:+ ws +:+ q +:+ "ch:"
      +:+ replace tl (group 2 m) "ch:".
Proof.
  intros Hm Hne.
  destruct (charm_match_parts line m Hm)
    as (Hg1 & Hp & _ & _ & ws & q & tl & Hws & _ & Hq & Hl).
  destruct Hp as [Hp|Hp]; [congruence|].
  exists ws, q, (group 3 m +:+ tl). repeat split; try assumption.
  unfold replace. rewrite Hl at 1.
  assert (Ho : exists old', group 2 m = String "c" old').
  { destruct Hp as [->| ->]; now eexists. }
  destruct Ho as [old' Ho].
  rewrite Ho at 1.
  rewrite (replace_from_run is_space "c" old' "ch:" (group 1 m) _ Hg1 eq_refl).
  rewrite <- Ho. rewrite (replace_from_charm_key _ _ Hp).
  rewrite Ho at 1.
  rewrite (replace_from_run is_space "c" old' "ch:" ws _ Hws eq_refl).
  rewrite <- Ho. rewrite (replace_from_quote _ q _ Hp Hq).
  rewrite Ho at 1 2.
  rewrite (replace_from_occurrence "c" old' "ch:").
  now rewrite <- Ho.
Qed.

End PrefixRewrite.

(** ** Instances of the further properties *)

Lemma modify_channel_inert_file_witness :
  let file_lines :=
    [ln "series: jammy"; ln "  charm: ch:keystone"; ln "  channel: latest/edge"] in
  modify_channel ["nova-compute"] ∅ (Some "candidate") [] true [] file_lines
  = file_lines.
Proof.
  intros file_lines.
  apply (modify_channel_inert_file ["nova-compute"] ∅ (Some "candidate") []
           true [] file_lines).
  vm_compute. reflexivity.
Defined.

Lemma block_channel_inserted_witness :
  let ref := ln "  charm: cs:~openstack-charmers/nova-compute" in
  let body := [ln "  num_units: 1"; ln "    channel: deep"] in
  let post := [ln "other:"] in
  run ["nova-compute"] ∅ (Some "candidate") [] true [] idle
    (ref :: body ++ post)
  = ln "  charm: ch:nova-compute" :: body ++ [ln "  channel: candidate"]
    ++ post.
Proof.
  intros ref body post.
  rewrite (block_channel_inserted ["nova-compute"] ∅ (Some "candidate") []
             true [] idle ref "candidate"
             [(1, "  "); (2, "cs:~openstack-charmers/"); (3, "nova-compute")]
             body post).
  - vm_compute. reflexivity.
  - vm_compute. reflexivity.
  - reflexivity.
  - vm_compute. reflexivity.
  - vm_compute. reflexivity.
  - vm_compute. reflexivity.
  - vm_compute. reflexivity.
Defined.

Lemma block_channel_replaced_witness :
  let ref := ln "  charm: ch:nova-compute" in
  let body := [ln "  num_units: 1"] in
  let chan := ln "  channel: latest/edge  # old" in
  let rest := [ln "  options: {}"] in
  run ["nova-compute"] ∅ (Some "candidate") [] false [] idle
    (ref :: body ++ chan :: rest)
  = ref :: body ++ [ln "  channel: candidate"] ++ rest.
Proof.
  intros ref body chan rest.
  rewrite (block_channel_replaced ["nova-compute"] ∅ (Some "candidate") []
             false [] idle ref chan "candidate"
             [(1, "  "); (2, "ch:"); (3, "nova-compute")] body rest).
  - vm_compute. reflexivity.
  - vm_compute. reflexivity.
  - reflexivity.
  - vm_compute. reflexivity.
  - vm_compute. reflexivity.
  - vm_compute. reflexivity.
  - vm_compute. reflexivity.
  - vm_compute. reflexivity.
Defined.

Lemma modify_channel_writes_witness :
  let file_lines := [ln "  charm: ch:nova-compute"] in
  In (ln "  channel: candidate") file_lines \/
  written_channel_line ["nova-compute"] ∅ (Some "candidate") [] []
    (ln "  channel: candidate").
Proof.
  intros file_lines.
  apply (modify_channel_writes ["nova-compute"] ∅ (Some "candidate") [] []
           file_lines).
  vm_compute. right. left. reflexivity.
Defined.

Lemma charm_match_groups_witness :
  let m := [(1, "  "); (2, "cs:~openstack-charmers-next/"); (3, "nova-compute")] in
  all is_name_char (group 3 m) = true /\ group 3 m <> EmptyString.
Proof.
  intros m.
  destruct (charm_match_groups
              (ln "  charm: 'cs:~openstack-charmers-next/nova-compute'  # c") m)
    as (_ & _ & H3 & H4 & _).
  - vm_compute. reflexivity.
  - now split.
Defined.

Lemma channel_line_elsewhere_kept_witness :
  let st := State (Some "  ") (Some "nova-compute") in
  let line := ln "    channel: latest/edge" in
  step ["nova-compute"] ∅ (Some "candidate") [] false [] st line
  = ([line], st).
Proof.
  intros st line.
  rewrite (channel_line_elsewhere_kept ["nova-compute"] ∅ (Some "candidate")
             [] false [] st line [(1, "    "); (2, "latest/edge")]).
  - reflexivity.
  - vm_compute. reflexivity.
  - intros H. vm_compute in H. discriminate H.
Defined.

Lemma get_channel_sound_witness :
  let lp_config : LpConfig :=
    {[ "nova-compute" := {[ "stable/queens" := ["22.08/stable"; "latest/edge"] ]} ]} in
  exists branch tracks,
    In branch ["master"; "stable/queens"] /\
    lp_config !! "nova-compute"
      ≫= (fun by_branch : gmap string (list string) => by_branch !! branch)
    = Some tracks /\
    In "latest/edge" tracks /\
    forall ignore, In ignore ["22.08"] -> startswith "latest/edge" ignore = false.
Proof.
  intros lp_config.
  apply (get_channel_sound lp_config None ["22.08"] ["master"; "stable/queens"]
           "nova-compute" "latest/edge").
  - discriminate.
  - vm_compute. reflexivity.
Defined.

Lemma get_channel_none_witness :
  let lp_config : LpConfig :=
    {[ "nova-compute" := {[ "stable/queens" := ["22.08/stable"; "22.08/edge"] ]} ]} in
  _get_channel lp_config None ["stable/queens"] ["22.08"] (Some "nova-compute")
    = None <->
  forall branch tracks t,
    In branch ["stable/queens"] ->
    lp_config !! "nova-compute"
      ≫= (fun by_branch : gmap string (list string) => by_branch !! branch)
    = Some tracks ->
    In t tracks ->
    exists ignore, In ignore ["22.08"] /\ startswith t ignore = true.
Proof.
  intros lp_config.
  apply (get_channel_none lp_config None ["22.08"] ["stable/queens"]
           "nova-compute").
  discriminate.
Defined.

Lemma empty_ignore_prefix_ignores_all_witness :
  let lp_config : LpConfig :=
    {[ "nova-compute" := {[ "master" := ["latest/edge"] ]} ]} in
  _get_channel lp_config None ["master"] [EmptyString] (Some "nova-compute")
  = None.
Proof.
  intros lp_config.
  apply (empty_ignore_prefix_ignores_all lp_config None [EmptyString]
           ["master"] "nova-compute").
  - discriminate.
  - now left.
Defined.

Lemma get_charms_list_names_witness :
  strip "nova-compute" = "nova-compute" /\ "nova-compute" <> EmptyString /\
  startswith "nova-compute" "#" = false.
Proof.
  apply (get_charms_list_names [[ln "  nova-compute  "; ln "# more"]]).
  vm_compute. now left.
Defined.

Lemma get_charms_list_skips_witness :
  get_charms_list ((ln "  # openstack charms" :: [ln "keystone"]) :: [])
  = get_charms_list ([ln "keystone"] :: []).
Proof.
  apply get_charms_list_skips. right. vm_compute. reflexivity.
Defined.


Lemma project_with_branches_gets_own_witness :
  let d : gmap scalar yaml := {[ SStr "master" := YSeq [ystr "latest/edge"] ]} in
  let bs := [(SStr "stable/queens", ymap [("channels", YSeq [ystr "queens/stable"])])] in
  let p := [(SStr "charmhub", ystr "nova-compute"); (SStr "branches", YMap bs)] in
  exists own,
    add_project d (YMap p) ∅ = Ok (<[SStr "nova-compute" := own]> ∅) /\
    forall k, own !! k =
              match entry k bs with
              | Some (YMap es) => entry (SStr "channels") es
              | _ => None
              end.
Proof.
  intros d bs p.
  apply (project_with_branches_gets_own d p bs (SStr "nova-compute") ∅).
  - reflexivity.
  - repeat constructor. intros H. inversion H.
  - repeat constructor. cbn. eexists _, _. split; reflexivity.
  - reflexivity.
Defined.

Lemma parse_well_shaped_witness :
  let projects :=
    [ymap [("name", ystr "charm-nova-compute"); ("charmhub", ystr "nova-compute")];
     ymap [("charmhub", ystr "keystone"); ("branches", ymap [])]] in
  exists lp_config,
    parse_lp_builder_config_file (ymap [("projects", YSeq projects)])
    = Ok (lp_config, false) /\
    forall k, is_Some (lp_config !! k) <->
      exists p, In (YMap p) projects /\
                entry (SStr "charmhub") p = Some (YScal k).
Proof.
  intros projects.
  apply (parse_well_shaped _ projects).
  - reflexivity.
  - reflexivity.
  - reflexivity.
Defined.

Lemma last_project_wins_witness :
  let d : gmap scalar yaml := {[ SStr "master" := YSeq [ystr "latest/edge"] ]} in
  let first := ymap [("charmhub", ystr "nova-compute")] in
  let p := [(SStr "charmhub", ystr "nova-compute");
            (SStr "branches",
             ymap [("main", ymap [("channels", YSeq [ystr "2024.1/edge"])])])] in
  exists key branches lp_config',
    entry (SStr "charmhub") p = Some (YScal key) /\
    add_project d (YMap p) ∅ = Ok {[ key := branches ]} /\
    add_projects d ([first] ++ [YMap p]) ∅ = (lp_config', Ok tt) /\
    lp_config' !! key = Some branches.
Proof.
  intros d first p.
  apply (last_project_wins d [first] p ∅). reflexivity.
Defined.

Lemma last_config_file_wins_witness :
  let file1 := ymap [("projects", YSeq [ymap [("charmhub", ystr "nova-compute")]])] in
  let file2 :=
    ymap [("defaults",
           ymap [("branches",
                  ymap [("master", ymap [("channels", YSeq [ystr "latest/edge"])])])]);
          ("projects", YSeq [ymap [("charmhub", ystr "nova-compute")]])] in
  let lp_config : RawLpConfig := {[ SStr "nova-compute" := ∅ ]} in
  let parsed : RawLpConfig :=
    {[ SStr "nova-compute" := {[ SStr "master" := YSeq [ystr "latest/edge"] ]} ]} in
  exists lp_config',
    get_lp_builder_config ([file1] ++ [file2]) = Ok lp_config' /\
    forall charm,
      lp_config' !! charm =
      match parsed !! charm with
      | Some by_branch => Some by_branch
      | None => lp_config !! charm
      end.
Proof.
  intros file1 file2 lp_config parsed.
  apply (last_config_file_wins [file1] file2 lp_config parsed false).
  - vm_compute. reflexivity.
  - vm_compute. reflexivity.
Defined.

Lemma config_file_without_projects_ignored_witness :
  let file1 := ymap [("projects", YSeq [ymap [("charmhub", ystr "nova-compute")]])] in
  let es := [(SStr "defaults", ymap [("branches", ymap [])])] in
  get_lp_builder_config ([file1] ++ YMap es :: [file1])
  = get_lp_builder_config ([file1] ++ [file1]).
Proof.
  intros file1 es.
  apply (config_file_without_projects_ignored [file1] [file1] es).
  - reflexivity.
  - reflexivity.
Defined.

Lemma config_file_exception_propagates_witness :
  let file1 := ymap [("projects", YSeq [ymap [("charmhub", ystr "nova-compute")]])] in
  get_lp_builder_config ([file1] ++ YScal SNull :: [file1]) = Raise TypeError.
Proof.
  intros file1.
  apply (config_file_exception_propagates [file1] [file1] (YScal SNull)
           {[ SStr "nova-compute" := ∅ ]} TypeError).
  - vm_compute. reflexivity.
  - reflexivity.
Defined.

Lemma rewrite_file_inert_witness :
  let crlf := String "013"%char nl in
  let text :=
    "series: jammy" +:+ crlf +:+ "  charm: ch:keystone" +:+ crlf
    +:+ "  num_units: 1" in
  rewrite_file ["nova-compute"] ∅ (Some "candidate") [] true [] text
  = ln "series: jammy" +:+ ln "  charm: ch:keystone" +:+ "  num_units: 1".
Proof.
  intros crlf text.
  destruct (rewrite_file_inert ["nova-compute"] ∅ (Some "candidate") []
              true [] text) as [E _].
  - vm_compute. reflexivity.
  - rewrite E. vm_compute. reflexivity.
Defined.

Lemma channel_glued_to_unterminated_reference_witness :
  let text := ln "series: jammy" +:+ "  charm: ch:nova-compute" in
  rewrite_file ["nova-compute"] ∅ (Some "candidate") [] false [] text
  = ln "series: jammy"
    +:+ ln "  charm: ch:nova-compute  channel: candidate".
Proof.
  intros text.
  etransitivity.
  - apply (channel_glued_to_unterminated_reference ["nova-compute"] ∅
             (Some "candidate") [] [] text "  charm: ch:nova-compute"
             [ln "series: jammy"]
             [(1, "  "); (2, "ch:"); (3, "nova-compute")] "candidate").
    + vm_compute. reflexivity.
    + vm_compute. reflexivity.
    + vm_compute. reflexivity.
    + vm_compute. reflexivity.
    + vm_compute. reflexivity.
  - vm_compute. reflexivity.
Defined.


Lemma reference_prefix_rewritten_witness :
  let line :=
    ln "  charm: cs:~openstack-charmers/nova-compute  # was cs:~openstack-charmers/nova" in
  let m := [(1, "  "); (2, "cs:~openstack-charmers/"); (3, "nova-compute")] in
  exists ws q tl,
    all is_space ws = true /\
    (q = EmptyString \/ q = squote \/ q = dquote) /\
    line = group 1 m +:+ "charm:" +:+ ws +:+ q +:+ group 2 m +:+ tl /\
    replace line (group 2 m) "ch:"
    = group 1 m +:+ "charm:" +:+ ws +:+ q +:+ "ch:"
      +:+ replace tl (group 2 m) "ch:".
Proof.
  intros line m.
  apply (reference_prefix_rewritten line m).
  - vm_compute. reflexivity.
  - discriminate.
Defined.

(** The comment of that line is rewritten along with the reference. *)
Example reference_prefix_rewritten_in_comment :
  replace
    (ln "  charm: cs:~openstack-charmers/nova-compute  # was cs:~openstack-charmers/nova")
    "cs:~openstack-charmers/" "ch:"
  = ln "  charm: ch:nova-compute  # was ch:nova".
Proof. vm_compute. reflexivity. Qed.
